(** * The realtime socket of the Nakama Swift client

    A shallow embedding of [Socket] (the Swift class that multiplexes
    requests and server pushes over one web-socket connection) and the
    properties of its correlation machinery.

    The class keeps a dictionary [collatedPromises] from correlation id to a
    type-erased NIO promise, an atomic [collationCounter], nineteen optional
    handler properties, and talks to a [SocketAdapter].  The protobuf types,
    the adapter and NIO are libraries: their part is modelled by what the
    class does with them (a codec record, a record of the calls made on the
    adapter, a store of future cells). *)

From Stdlib Require Import ZArith DecimalString DecimalPos DecimalZ.
From stdpp Require Import gmap strings list.

Open Scope Z_scope.

(** ** Protobuf values *)

(** Foundation's [Data]. *)
Definition Data := list Byte.byte.

(** A decoded protobuf message whose fields the socket never inspects. *)
Definition Body := list Byte.byte.

(** [Nakama_Realtime_Error]: the fields used for the error surfaced to a
    caller. *)
Record Nakama_Realtime_Error := {
  code : Z;
  message : string
}.

Record Nakama_Realtime_MatchDataSend := {
  mds_matchID : string;
  mds_opCode : Z;
  mds_data : Data;
  mds_presences : list Body
}.

Record Nakama_Realtime_PartyDataSend := {
  pds_partyID : string;
  pds_opCode : Z;
  pds_data : Data
}.

(** The variants of [Nakama_Realtime_Envelope.OneOf_Message] that the class
    names, as responses, pushes or requests. *)
Module OneOf_Message.
Inductive t :=
(* responses and pushes *)
| error (e : Nakama_Realtime_Error)
| rpc (b : Body)
| channel (b : Body)
| channelMessageAck (b : Body)
| match_ (b : Body)
| matchmakerTicket (b : Body)
| status (b : Body)
| party (b : Body)
| partyMatchmakerTicket (b : Body)
| channelMessage (b : Body)
| channelPresenceEvent (b : Body)
| matchData (b : Body)
| matchPresenceEvent (b : Body)
| matchmakerMatched (b : Body)
| notifications (b : Body)
| statusPresenceEvent (b : Body)
| streamData (b : Body)
| streamPresenceEvent (b : Body)
| partyJoinRequest (b : Body)
| partyData (b : Body)
| partyPresenceEvent (b : Body)
| partyClose (b : Body)
| partyLeader (b : Body)
(* requests *)
| channelJoin (b : Body)
| channelLeave (b : Body)
| channelMessageRemove (b : Body)
| channelMessageSend (b : Body)
| channelMessageUpdate (b : Body)
| matchCreate (b : Body)
| matchJoin (b : Body)
| matchLeave (b : Body)
| matchmakerAdd (b : Body)
| matchmakerRemove (b : Body)
| matchDataSend (r : Nakama_Realtime_MatchDataSend)
| statusFollow (b : Body)
| statusUnfollow (b : Body)
| statusUpdate (b : Body)
| partyCreate (b : Body)
| partyJoin (b : Body)
| partyLeave (b : Body)
| partyDataSend (r : Nakama_Realtime_PartyDataSend)
| partyAccept (b : Body)
| partyRemove (b : Body)
| partyMatchmakerAdd (b : Body)
| partyMatchmakerRemove (b : Body)
| partyJoinRequestList (b : Body)
| partyPromote (b : Body).
End OneOf_Message.

(** [Nakama_Realtime_Envelope]: [message] is an optional one-of. *)
Record Nakama_Realtime_Envelope := {
  cid : string;
  message_ : option OneOf_Message.t
}.

Definition Nakama_Realtime_Envelope_init : Nakama_Realtime_Envelope :=
  {| cid := ""; message_ := None |}.

Definition set_cid (c : string) (env : Nakama_Realtime_Envelope) :=
  {| cid := c; message_ := message_ env |}.

(** The message types [T] at which [send<T: Message>] is instantiated. *)
Inductive MessageType :=
| Google_Protobuf_Empty
| Nakama_Api_Rpc
| Nakama_Realtime_Channel
| Nakama_Realtime_ChannelMessageAck
| Nakama_Realtime_Match
| Nakama_Realtime_MatchmakerTicket
| Nakama_Realtime_Status
| Nakama_Realtime_Party
| Nakama_Realtime_PartyMatchmakerTicket
| Nakama_Realtime_PartyJoinRequest.

#[global] Instance MessageType_eq_dec : EqDecision MessageType.
Proof. solve_decision. Defined.

(** The value parameter of an [EventLoopPromise<_>] named in a cast: [Any],
    or a message type. *)
Inductive ValueType :=
| AnyT
| MessageT (T : MessageType).

#[global] Instance ValueType_eq_dec : EqDecision ValueType.
Proof. solve_decision. Defined.

(** ** Errors, results, control *)

Inductive SwiftError :=
| NakamaRealtimeError_error (e : Nakama_Realtime_Error)
| NakamaRealtimeError_text (text : string)
| BinaryEncodingError (why : string)
| BinaryDecodingError (why : string)
| JSONEncodingError (why : string)
| AdapterError (why : string).

(** A value of a [throws] function. *)
Inductive Try (A : Type) :=
| Ok (a : A)
| Throw (e : SwiftError).
Arguments Ok {A} a.
Arguments Throw {A} e.

(** A computation that can hit a runtime trap ([as!], [try!], [!]): the
    process is gone and there is no state after it. *)
Inductive Exec (A : Type) :=
| Done (a : A)
| Trap.
Arguments Done {A} a.
Arguments Trap {A}.

Definition bind {A B} (x : Exec A) (k : A -> Exec B) : Exec B :=
  match x with
  | Done a => k a
  | Trap => Trap
  end.

(** What a promise was fulfilled with. *)
Inductive PValue :=
| Google_Protobuf_Empty_init
| decoded (b : Body).

Inductive Result :=
| success (v : PValue)
| failure (e : SwiftError).

(** The protobuf runtime and Foundation, as far as the class calls them. *)
Record Codec := {
  serializedData : Nakama_Realtime_Envelope -> Try Data;
  init_serializedData : Data -> Try Nakama_Realtime_Envelope;
  jsonString : Nakama_Realtime_Envelope -> Try string;
  data_using_utf8 : string -> option Data
}.

(** ** The socket and its surroundings *)

(** An [EventLoopPromise<Value>]: a struct holding a reference to its
    future.  Stored in the dictionary as [Any], it keeps its dynamic type. *)
Record EventLoopPromise := {
  Value : MessageType;
  futureResult : nat
}.

(** The optional handler properties. *)
Inductive Handler :=
| onConnect | onDisconnect | onError
| onChannelMessage | onChannelPresence | onMatchmakerMatched
| onMatchData | onMatchPresence | onNotifications
| onStatusPresence | onStreamPresence | onStreamData
| onPartyReceived | onPartyClosed | onPartyData | onPartyJoin
| onPartyPresence | onPartyMatchmakerTicket | onPartyLeader.

#[global] Instance Handler_eq_dec : EqDecision Handler.
Proof. solve_decision. Defined.

Record URLQueryItem := {
  name : string;
  value : option string
}.

Record URLComponents := {
  scheme : option string;
  url_host : option string;
  url_port : option Z;
  path : string;
  queryItems : option (list URLQueryItem)
}.

(** A call made on the [SocketAdapter]. *)
Inductive AdapterCall :=
| adapter_connect (url : URLComponents)
| adapter_disconnect
| adapter_send (data : Data).

Inductive LogLine :=
| Unrecognised_uncollated (json : string)
| Unrecognised_collated (json : string)
| No_matching_promise (c : string)
| Failed_to_deserialise (e : SwiftError).

(** What the class does to the outside, in order: lines written to the
    logger and handlers invoked. *)
Inductive Effect :=
| logged (l : LogLine)
| called (h : Handler)
| called_with_error (h : Handler) (e : SwiftError)
| called_with (h : Handler) (b : Body).

Inductive Logger := a_logger.

Record Session := {
  token : string
}.

(** The object and the world it acts on.  [handlers h] says whether the
    handler property [h] is non-nil; [futures] holds one cell per promise
    made, [None] while it is pending; [adapter] and [effects] record calls
    going out, oldest first. *)
Record Socket := {
  host : string;
  port : Z;
  ssl : bool;
  logger : option Logger;
  handlers : Handler -> bool;
  collationCounter : Z;
  collatedPromises : gmap string EventLoopPromise;
  futures : list (option Result);
  adapter : list AdapterCall;
  effects : list Effect
}.

Definition with_collationCounter (n : Z) (s : Socket) : Socket :=
  {| host := host s; port := port s; ssl := ssl s; logger := logger s;
     handlers := handlers s; collationCounter := n;
     collatedPromises := collatedPromises s; futures := futures s;
     adapter := adapter s; effects := effects s |}.

Definition with_collatedPromises (m : gmap string EventLoopPromise) (s : Socket) : Socket :=
  {| host := host s; port := port s; ssl := ssl s; logger := logger s;
     handlers := handlers s; collationCounter := collationCounter s;
     collatedPromises := m; futures := futures s;
     adapter := adapter s; effects := effects s |}.

Definition with_futures (f : list (option Result)) (s : Socket) : Socket :=
  {| host := host s; port := port s; ssl := ssl s; logger := logger s;
     handlers := handlers s; collationCounter := collationCounter s;
     collatedPromises := collatedPromises s; futures := f;
     adapter := adapter s; effects := effects s |}.

Definition with_adapter (a : list AdapterCall) (s : Socket) : Socket :=
  {| host := host s; port := port s; ssl := ssl s; logger := logger s;
     handlers := handlers s; collationCounter := collationCounter s;
     collatedPromises := collatedPromises s; futures := futures s;
     adapter := a; effects := effects s |}.

Definition with_effects (e : list Effect) (s : Socket) : Socket :=
  {| host := host s; port := port s; ssl := ssl s; logger := logger s;
     handlers := handlers s; collationCounter := collationCounter s;
     collatedPromises := collatedPromises s; futures := futures s;
     adapter := adapter s; effects := e |}.

Definition with_handler (h : Handler) (set : bool) (s : Socket) : Socket :=
  {| host := host s; port := port s; ssl := ssl s; logger := logger s;
     handlers := fun h' => if decide (h = h') then set else handlers s h';
     collationCounter := collationCounter s;
     collatedPromises := collatedPromises s; futures := futures s;
     adapter := adapter s; effects := effects s |}.

(** [init]: every handler is nil, the counter is 0, the dictionary empty. *)
Definition init (host0 : string) (port0 : Z) (ssl0 : bool) (logger0 : option Logger) : Socket :=
  {| host := host0; port := port0; ssl := ssl0; logger := logger0;
     handlers := fun _ => false; collationCounter := 0;
     collatedPromises := ∅; futures := [];
     adapter := []; effects := [] |}.

(** *** Calls going out *)

Definition emit (e : Effect) (s : Socket) : Socket :=
  with_effects (effects s ++ [e]) s.

(** [self.logger?.error(line)]. *)
Definition logger_error (l : LogLine) (s : Socket) : Socket :=
  match logger s with
  | Some _ => emit (logged l) s
  | None => s
  end.

(** [self.h?()], [self.h?(error)], [self.h?(body)]. *)
Definition invoke (h : Handler) (s : Socket) : Socket :=
  if handlers s h then emit (called h) s else s.

Definition invoke_error (h : Handler) (e : SwiftError) (s : Socket) : Socket :=
  if handlers s h then emit (called_with_error h e) s else s.

Definition invoke_with (h : Handler) (b : Body) (s : Socket) : Socket :=
  if handlers s h then emit (called_with h b) s else s.

Definition socketAdapter_call (c : AdapterCall) (s : Socket) : Socket :=
  with_adapter (adapter s ++ [c]) s.

(** *** The closures installed on the adapter by [init] *)

Definition socketAdapter_onConnect (s : Socket) : Socket :=
  invoke onConnect s.

Definition socketAdapter_onDisconnect (s : Socket) : Socket :=
  invoke onDisconnect s.

Definition socketAdapter_onError (error : SwiftError) (s : Socket) : Socket :=
  invoke_error onError error s.

(** *** [connect(session:appearOnline:)] and [disconnect()] *)

Definition connect_components (s : Socket) (session : Session)
    (appearOnline : option bool) : URLComponents :=
  let items :=
    [ {| name := "token"; value := Some (token session) |};
      {| name := "format"; value := Some "protobuf" |} ] in
  {| scheme := Some (if ssl s then "wss" else "ws")%string;
     url_host := Some (host s);
     url_port := Some (port s);
     path := "/ws";
     queryItems := Some
       match appearOnline with
       | Some appearOnline =>
           items ++ [ {| name := "status";
                         value := Some (if appearOnline then "true" else "false")%string |} ]
       | None => items
       end |}.

(** The URL handed to the adapter is kept as its components. *)
Definition connect (session : Session) (appearOnline : option bool) (s : Socket) : Socket :=
  socketAdapter_call (adapter_connect (connect_components s session appearOnline)) s.

Definition disconnect (s : Socket) : Socket :=
  socketAdapter_call adapter_disconnect s.

(** ** Promises *)

(** [eventLoop.makePromise(of: T.self)]: a new pending future. *)
Definition makePromise (T : MessageType) (s : Socket) : Socket * EventLoopPromise :=
  (with_futures (futures s ++ [None]) s,
   {| Value := T; futureResult := length (futures s) |}).

(** Completing a promise stores the result in its future unless the future
    already has one (NIO keeps the first result). *)
Definition fulfil (promise : EventLoopPromise) (r : Result) (s : Socket) : Socket :=
  match futures s !! futureResult promise with
  | Some None => with_futures (<[futureResult promise := Some r]> (futures s)) s
  | _ => s
  end.

Definition succeed (promise : EventLoopPromise) (v : PValue) (s : Socket) : Socket :=
  fulfil promise (success v) s.

Definition fail (promise : EventLoopPromise) (e : SwiftError) (s : Socket) : Socket :=
  fulfil promise (failure e) s.

(** [collatedPromise as? EventLoopPromise<X>]: generic structs are invariant
    in their parameter, so the cast succeeds only at the promise's own value
    type; no stored promise is an [EventLoopPromise<Any>]. *)
Definition cast (X : ValueType) (collatedPromise : EventLoopPromise) : option EventLoopPromise :=
  if decide (MessageT (Value collatedPromise) = X) then Some collatedPromise else None.

(** [collatedPromise as! EventLoopPromise<X>] traps when the cast fails. *)
Definition force_cast (X : ValueType) (collatedPromise : EventLoopPromise) : Exec EventLoopPromise :=
  match cast X collatedPromise with
  | Some promise => Done promise
  | None => Trap
  end.

(** ** The correlation counter *)

(** [Int] is 64 bits wide; [wrappingIncrementThenLoad] wraps around. *)
Definition Int_wrap (z : Z) : Z := (z + 2 ^ 63) mod 2 ^ 64 - 2 ^ 63.

Definition wrappingIncrementThenLoad (s : Socket) : Socket * Z :=
  let n := Int_wrap (collationCounter s + 1) in
  (with_collationCounter n s, n).

(** [String(_: Int)]. *)
Definition String_of_Int (z : Z) : string := NilZero.string_of_int (Z.to_int z).

Section WithCodec.

Variable pb : Codec.

(** ** [send<T: Message>(env:)]

    The body runs in three stretches, between which other tasks can run:
    it draws an id and makes the promise, it stores the promise under the
    id, it encodes and hands the bytes to the adapter.  Then it awaits the
    promise. *)

Definition send_enter (T : MessageType) (s : Socket) : Socket * (string * EventLoopPromise) :=
  let '(s, n) := wrappingIncrementThenLoad s in
  let counter := String_of_Int n in
  let '(s, promise) := makePromise T s in
  (s, (counter, promise)).

Definition send_store (counter : string) (promise : EventLoopPromise) (s : Socket) : Socket :=
  with_collatedPromises (<[counter := promise]> (collatedPromises s)) s.

(** [env] already carries the id.  A failing [try env.serializedData()]
    leaves [send] with that error. *)
Definition send_transmit (env : Nakama_Realtime_Envelope) (s : Socket) : Socket * Try unit :=
  match serializedData pb env with
  | Throw e => (s, Throw e)
  | Ok binaryData => (socketAdapter_call (adapter_send binaryData) s, Ok tt)
  end.

(** One activation run without interruption, up to its [await]: the state,
    the promise awaited, and whether the body threw before awaiting. *)
Definition send (T : MessageType) (env : Nakama_Realtime_Envelope) (s : Socket)
    : Socket * EventLoopPromise * Try unit :=
  let '(s, (counter, promise)) := send_enter T s in
  let env := set_cid counter env in
  let s := send_store counter promise s in
  let '(s, thrown) := send_transmit env s in
  (s, promise, thrown).

(** ** [onReceivedData(data:)] *)

(** [self.logger?.error("... \(try! response.jsonString())")]: the message
    is built only when there is a logger. *)
Definition logger_error_json (line : string -> LogLine)
    (response : Nakama_Realtime_Envelope) (s : Socket) : Exec Socket :=
  match logger s with
  | None => Done s
  | Some _ =>
      match jsonString pb response with
      | Ok json => Done (emit (logged (line json)) s)
      | Throw _ => Trap
      end
  end.

(** The switch over an uncollated message.  A party is converted by
    [toParty()] before it is handed over; the handler call records the
    message received. *)
Definition onReceivedData_uncollated (response : Nakama_Realtime_Envelope) (s : Socket)
    : Exec Socket :=
  match message_ response with
  | Some (OneOf_Message.error error) =>
      Done (invoke_error onError (NakamaRealtimeError_error error) s)
  | Some (OneOf_Message.channelMessage channelMessage) =>
      Done (invoke_with onChannelMessage channelMessage s)
  | Some (OneOf_Message.channelPresenceEvent channelPresenceEvent) =>
      Done (invoke_with onChannelPresence channelPresenceEvent s)
  | Some (OneOf_Message.matchData matchData) =>
      Done (invoke_with onMatchData matchData s)
  | Some (OneOf_Message.matchPresenceEvent matchPresenceEvent) =>
      Done (invoke_with onMatchPresence matchPresenceEvent s)
  | Some (OneOf_Message.matchmakerMatched matchermakerMatched) =>
      Done (invoke_with onMatchmakerMatched matchermakerMatched s)
  | Some (OneOf_Message.notifications notifications) =>
      Done (invoke_with onNotifications notifications s)
  | Some (OneOf_Message.statusPresenceEvent statusPresenceEvent) =>
      Done (invoke_with onStatusPresence statusPresenceEvent s)
  | Some (OneOf_Message.streamData streamData) =>
      Done (invoke_with onStreamData streamData s)
  | Some (OneOf_Message.streamPresenceEvent streamPresenceEvent) =>
      Done (invoke_with onStreamPresence streamPresenceEvent s)
  | Some (OneOf_Message.party party) =>
      Done (invoke_with onPartyReceived party s)
  | Some (OneOf_Message.partyJoinRequest joinRequest) =>
      Done (invoke_with onPartyJoin joinRequest s)
  | Some (OneOf_Message.partyData data) =>
      Done (invoke_with onPartyData data s)
  | Some (OneOf_Message.partyPresenceEvent partyPresenceEvent) =>
      Done (invoke_with onPartyPresence partyPresenceEvent s)
  | Some (OneOf_Message.partyMatchmakerTicket ticket) =>
      Done (invoke_with onPartyMatchmakerTicket ticket s)
  | Some (OneOf_Message.partyClose close) =>
      Done (invoke_with onPartyClosed close s)
  | Some (OneOf_Message.partyLeader leader) =>
      Done (invoke_with onPartyLeader leader s)
  | _ => logger_error_json Unrecognised_uncollated response s
  end.

(** A typed case of the collated switch:
    [let promise = collatedPromise as! EventLoopPromise<T>; promise.succeed(x)]. *)
Definition succeed_as (T : MessageType) (collatedPromise : EventLoopPromise)
    (x : Body) (s : Socket) : Exec Socket :=
  bind (force_cast (MessageT T) collatedPromise)
       (fun promise => Done (succeed promise (decoded x) s)).

(** The switch over a collated message whose promise was found. *)
Definition onReceivedData_collated (collatedPromise : EventLoopPromise)
    (response : Nakama_Realtime_Envelope) (s : Socket) : Exec Socket :=
  match message_ response with
  | Some (OneOf_Message.error error) =>
      match cast AnyT collatedPromise with
      | Some promise => Done (fail promise (NakamaRealtimeError_error error) s)
      | None =>
          match cast (MessageT Google_Protobuf_Empty) collatedPromise with
          | Some promise => Done (fail promise (NakamaRealtimeError_error error) s)
          | None => Done s
          end
      end
  | Some (OneOf_Message.rpc rpc) =>
      succeed_as Nakama_Api_Rpc collatedPromise rpc s
  | Some (OneOf_Message.channel channel) =>
      succeed_as Nakama_Realtime_Channel collatedPromise channel s
  | Some (OneOf_Message.channelMessageAck channelMessageAck) =>
      succeed_as Nakama_Realtime_ChannelMessageAck collatedPromise channelMessageAck s
  | Some (OneOf_Message.match_ match_) =>
      succeed_as Nakama_Realtime_Match collatedPromise match_ s
  | Some (OneOf_Message.matchmakerTicket matchmakerTicket) =>
      succeed_as Nakama_Realtime_MatchmakerTicket collatedPromise matchmakerTicket s
  | Some (OneOf_Message.status status) =>
      succeed_as Nakama_Realtime_Status collatedPromise status s
  | Some (OneOf_Message.party party) =>
      succeed_as Nakama_Realtime_Party collatedPromise party s
  | Some (OneOf_Message.partyMatchmakerTicket ticket) =>
      succeed_as Nakama_Realtime_PartyMatchmakerTicket collatedPromise ticket s
  | _ =>
      bind (logger_error_json Unrecognised_collated response s) (fun s =>
      (* Handle empty or nil response from server *)
      match cast (MessageT Google_Protobuf_Empty) collatedPromise with
      | Some promise => Done (succeed promise Google_Protobuf_Empty_init s)
      | None => Done s
      end)
  end.

Definition onReceivedData (data : Data) (s : Socket) : Exec Socket :=
  match init_serializedData pb data with
  | Ok response =>
      if decide (cid response = "") then
        onReceivedData_uncollated response s
      else
        match collatedPromises s !! cid response with
        | Some collatedPromise => onReceivedData_collated collatedPromise response s
        | None => Done (logger_error (No_matching_promise (cid response)) s)
        end
  | Throw error =>
      Done (invoke_error onError error
              (logger_error (Failed_to_deserialise error) s))
  end.

(** The adapter hands over frames one at a time, in arrival order. *)
Fixpoint receive_all (frames : list Data) (s : Socket) : Exec Socket :=
  match frames with
  | [] => Done s
  | data :: frames => bind (onReceivedData data s) (receive_all frames)
  end.

(** ** One-way sends *)

(** [sendMatchData(matchId:opCode:data:presences:)], [data] a [Data]. *)
Definition sendMatchData (matchId : string) (opCode : Z) (data : Data)
    (presences : option (list Body)) (s : Socket) : Exec Socket :=
  let req := {| mds_matchID := matchId; mds_opCode := opCode; mds_data := data;
                mds_presences := default [] presences |} in
  let env := {| cid := ""; message_ := Some (OneOf_Message.matchDataSend req) |} in
  match serializedData pb env with
  | Ok binaryData => Done (socketAdapter_call (adapter_send binaryData) s)
  | Throw _ => Trap
  end.

(** [sendMatchData(matchId:opCode:data:presences:)], [data] a [String]. *)
Definition sendMatchData_String (matchId : string) (opCode : Z) (data : string)
    (presences : option (list Body)) (s : Socket) : Exec (Socket * Try unit) :=
  match data_using_utf8 pb data with
  | None => Done (s, Throw (NakamaRealtimeError_text "Unable to convert string to Data"))
  | Some data =>
      bind (sendMatchData matchId opCode data presences s) (fun s => Done (s, Ok tt))
  end.

(** [sendPartyData(partyId:opCode:data:)], [data] a [Data]: a request
    awaiting an empty reply. *)
Definition sendPartyData (partyId : string) (opCode : Z) (data : Data) (s : Socket)
    : Socket * EventLoopPromise * Try unit :=
  let env := {| cid := "";
                message_ := Some (OneOf_Message.partyDataSend
                  {| pds_partyID := partyId; pds_opCode := opCode; pds_data := data |}) |} in
  send Google_Protobuf_Empty env s.

(** [sendPartyData(partyId:opCode:data:)], [data] a [String]: the envelope
    is built and the function ends. *)
Definition sendPartyData_String (partyId : string) (opCode : Z) (data : string)
    (s : Socket) : Socket * Try unit :=
  match data_using_utf8 pb data with
  | None => (s, Throw (NakamaRealtimeError_text "Unable to convert string to Data"))
  | Some data =>
      let env := {| cid := "";
                    message_ := Some (OneOf_Message.partyDataSend
                      {| pds_partyID := partyId; pds_opCode := opCode; pds_data := data |}) |} in
      (s, Ok tt)
  end.

End WithCodec.

(** ** Concurrent callers

    [send] is called from many tasks while the adapter delivers frames.  An
    activation of [send] is a frame of locals and a program point; a
    schedule is a list of events, each running one stretch of one
    activation, or one delivery, to its end. *)

Inductive Stage :=
| entered                    (* id drawn, promise made *)
| stored                     (* promise stored in the dictionary *)
| awaiting                   (* bytes handed to the adapter *)
| threw (e : SwiftError).    (* [serializedData] threw *)

Record Activation := {
  act_env : Nakama_Realtime_Envelope;
  act_counter : string;
  act_promise : EventLoopPromise;
  act_stage : Stage
}.

Definition at_stage (st : Stage) (a : Activation) : Activation :=
  {| act_env := act_env a; act_counter := act_counter a;
     act_promise := act_promise a; act_stage := st |}.

Record World := {
  socket : Socket;
  tasks : list Activation
}.

Inductive Event :=
| ev_call (T : MessageType) (env : Nakama_Realtime_Envelope)
| ev_store (i : nat)
| ev_transmit (i : nat)
| ev_receive (data : Data).

Section Schedules.

Variable pb : Codec.

(** An event that is not enabled (no such activation, or not at that
    point) leaves the world as it is. *)
Definition step (w : World) (ev : Event) : Exec World :=
  match ev with
  | ev_call T env =>
      let '(s, (counter, promise)) := send_enter T (socket w) in
      Done {| socket := s;
              tasks := tasks w ++ [ {| act_env := env; act_counter := counter;
                                       act_promise := promise; act_stage := entered |} ] |}
  | ev_store i =>
      match tasks w !! i with
      | Some a =>
          match act_stage a with
          | entered =>
              Done {| socket := send_store (act_counter a) (act_promise a) (socket w);
                      tasks := <[i := at_stage stored a]> (tasks w) |}
          | _ => Done w
          end
      | None => Done w
      end
  | ev_transmit i =>
      match tasks w !! i with
      | Some a =>
          match act_stage a with
          | stored =>
              let '(s, thrown) :=
                send_transmit pb (set_cid (act_counter a) (act_env a)) (socket w) in
              Done {| socket := s;
                      tasks := <[i := at_stage match thrown with
                                               | Ok _ => awaiting
                                               | Throw e => threw e
                                               end a]> (tasks w) |}
          | _ => Done w
          end
      | None => Done w
      end
  | ev_receive data =>
      bind (onReceivedData pb data (socket w))
           (fun s => Done {| socket := s; tasks := tasks w |})
  end.

Fixpoint run (events : list Event) (w : World) : Exec World :=
  match events with
  | [] => Done w
  | ev :: events => bind (step w ev) (run events)
  end.

End Schedules.

(** What a response message hands to the promise it completes: the error it
    is, the value it carries, or the empty acknowledgement. *)
Definition carried (m : option OneOf_Message.t) : Result :=
  match m with
  | Some (OneOf_Message.error error) => failure (NakamaRealtimeError_error error)
  | Some (OneOf_Message.rpc x)
  | Some (OneOf_Message.channel x)
  | Some (OneOf_Message.channelMessageAck x)
  | Some (OneOf_Message.match_ x)
  | Some (OneOf_Message.matchmakerTicket x)
  | Some (OneOf_Message.status x)
  | Some (OneOf_Message.party x)
  | Some (OneOf_Message.partyMatchmakerTicket x) => success (decoded x)
  | _ => success Google_Protobuf_Empty_init
  end.

(** The message kinds with a typed case in the collated switch, and the
    promise type that case casts to. *)
Definition typed_case (m : option OneOf_Message.t) : option MessageType :=
  match m with
  | Some (OneOf_Message.rpc _) => Some Nakama_Api_Rpc
  | Some (OneOf_Message.channel _) => Some Nakama_Realtime_Channel
  | Some (OneOf_Message.channelMessageAck _) => Some Nakama_Realtime_ChannelMessageAck
  | Some (OneOf_Message.match_ _) => Some Nakama_Realtime_Match
  | Some (OneOf_Message.matchmakerTicket _) => Some Nakama_Realtime_MatchmakerTicket
  | Some (OneOf_Message.status _) => Some Nakama_Realtime_Status
  | Some (OneOf_Message.party _) => Some Nakama_Realtime_Party
  | Some (OneOf_Message.partyMatchmakerTicket _) => Some Nakama_Realtime_PartyMatchmakerTicket
  | _ => None
  end.

Definition is_error (m : option OneOf_Message.t) : bool :=
  match m with
  | Some (OneOf_Message.error _) => true
  | _ => false
  end.

(** The result stored in a promise's future, [None] while pending. *)
Definition result_of (promise : EventLoopPromise) (s : Socket) : option Result :=
  match futures s !! futureResult promise with
  | Some r => r
  | None => None
  end.

(** The default-branch log statement does not trap. *)
Definition json_loggable (pb : Codec) (response : Nakama_Realtime_Envelope) (s : Socket) : Prop :=
  logger s = None \/ exists json, jsonString pb response = Ok json.

(** The frame does not decode, or it answers an id that is not in the
    dictionary. *)
Definition dropped (pb : Codec) (data : Data) (s : Socket) : Prop :=
  match init_serializedData pb data with
  | Throw _ => True
  | Ok response => cid response <> "" /\ collatedPromises s !! cid response = None
  end.

(** What a dropped frame writes: the log line when there is a logger, and
    for a decode failure the call of [onError] when it is set. *)
Definition dropped_effects (pb : Codec) (data : Data) (s : Socket) : list Effect :=
  match init_serializedData pb data with
  | Throw error =>
      match logger s with
      | Some _ => [logged (Failed_to_deserialise error)]
      | None => []
      end ++
      (if handlers s onError then [called_with_error onError error] else [])
  | Ok response =>
      match logger s with
      | Some _ => [logged (No_matching_promise (cid response))]
      | None => []
      end
  end.

(** The promise has a future and the future has no result yet. *)
Definition pending (promise : EventLoopPromise) (s : Socket) : Prop :=
  futures s !! futureResult promise = Some None.

(** Among [events] a reply was delivered that bears the id of activation
    [a] and carries [r]. *)
Definition answered_by (pb : Codec) (events : list Event) (a : Activation) (r : Result) : Prop :=
  exists data response,
    ev_receive data ∈ events /\
    init_serializedData pb data = Ok response /\
    cid response = act_counter a /\
    r = carried (message_ response).

(** What every schedule maintains: a stored promise is the promise of an
    activation and is stored under that activation's id; the promises of
    distinct activations have distinct futures, all allocated; a result in
    the future of an activation came with a reply bearing its id. *)
Record consistent (pb : Codec) (events : list Event) (w : World) : Prop := {
  stored_by_task : forall c promise,
    collatedPromises (socket w) !! c = Some promise ->
    exists i a, tasks w !! i = Some a /\ act_promise a = promise /\ act_counter a = c;
  task_future_allocated : forall i a,
    tasks w !! i = Some a ->
    (futureResult (act_promise a) < length (futures (socket w)))%nat;
  task_futures_distinct : forall i j a b,
    tasks w !! i = Some a -> tasks w !! j = Some b ->
    futureResult (act_promise a) = futureResult (act_promise b) -> i = j;
  results_answered : forall i a r,
    tasks w !! i = Some a ->
    futures (socket w) !! futureResult (act_promise a) = Some (Some r) ->
    answered_by pb events a r
}.

(** ** A small codec and sockets to run the definitions on *)

Module Example.

(** A frame is a tag byte followed by the correlation id in ASCII; the
    body of a decoded message is the id bytes. *)
Definition decode (data : Data) : Try Nakama_Realtime_Envelope :=
  match data with
  | [] => Throw (BinaryDecodingError "truncated")
  | tag :: rest =>
      let c := String.string_of_list_byte rest in
      match tag with
      | Byte.x00 => Ok {| cid := c; message_ := None |}
      | Byte.x01 =>
          Ok {| cid := c;
                message_ := Some (OneOf_Message.error
                                    {| code := 5; message := "not found" |}) |}
      | Byte.x02 => Ok {| cid := c; message_ := Some (OneOf_Message.rpc rest) |}
      | Byte.x03 => Ok {| cid := c; message_ := Some (OneOf_Message.match_ rest) |}
      | Byte.x04 => Ok {| cid := c; message_ := Some (OneOf_Message.channel rest) |}
      | Byte.x05 => Ok {| cid := c; message_ := Some (OneOf_Message.channelMessage rest) |}
      | _ => Throw (BinaryDecodingError "unknown tag")
      end
  end.

(** An envelope without a payload does not encode. *)
Definition encode (env : Nakama_Realtime_Envelope) : Try Data :=
  match message_ env with
  | Some _ => Ok (Byte.x10 :: String.list_byte_of_string (cid env))
  | None => Throw (BinaryEncodingError "missing payload")
  end.

Definition codec : Codec :=
  {| serializedData := encode;
     init_serializedData := decode;
     jsonString := fun _ => Ok "{}"%string;
     data_using_utf8 := fun s => Some (String.list_byte_of_string s) |}.

Definition frame (tag : Byte.byte) (c : string) : Data :=
  tag :: String.list_byte_of_string c.

(** A socket with a logger and the three lifecycle handlers set. *)
Definition socket0 : Socket :=
  with_handler onConnect true
    (with_handler onDisconnect true
       (with_handler onError true (init "127.0.0.1" 7350 false (Some a_logger)))).

Definition createMatch_env : Nakama_Realtime_Envelope :=
  {| cid := ""; message_ := Some (OneOf_Message.matchCreate []) |}.

Definition channelLeave_env : Nakama_Realtime_Envelope :=
  {| cid := ""; message_ := Some (OneOf_Message.channelLeave []) |}.


(** [createMatch()] has been called and is awaiting reply "1". *)
Definition awaiting_match : Socket * EventLoopPromise * Try unit :=
  send codec Nakama_Realtime_Match createMatch_env socket0.

(** [leaveChat(channelId:)] has been called and is awaiting reply "1". *)
Definition awaiting_empty : Socket * EventLoopPromise * Try unit :=
  send codec Google_Protobuf_Empty channelLeave_env socket0.

Definition match_pending : Socket := fst (fst awaiting_match).
Definition match_promise : EventLoopPromise := snd (fst awaiting_match).
Definition empty_pending : Socket := fst (fst awaiting_empty).
Definition empty_promise : EventLoopPromise := snd (fst awaiting_empty).

(** Two [createMatch()] calls whose stretches interleave, answered in
    the reverse order. *)
Definition crossed : list Event :=
  [ ev_call Nakama_Realtime_Match createMatch_env;
    ev_call Nakama_Realtime_Match createMatch_env;
    ev_store 1; ev_store 0; ev_transmit 1; ev_transmit 0;
    ev_receive (frame Byte.x03 "2");
    ev_receive (frame Byte.x03 "1") ].

End Example.

(** ** The request methods

    Each public request method fills a request message, puts it in a fresh
    envelope and awaits [send] at one message type.  [req] is the request
    message built from the method's arguments. *)

Section Requests.

Variable pb : Codec.

Definition request (T : MessageType) (m : OneOf_Message.t) (s : Socket)
    : Socket * EventLoopPromise * Try unit :=
  send pb T {| cid := ""; message_ := Some m |} s.

Definition joinChat (req : Body) :=
  request Nakama_Realtime_Channel (OneOf_Message.channelJoin req).
Definition leaveChat (req : Body) :=
  request Google_Protobuf_Empty (OneOf_Message.channelLeave req).
Definition removeChatMessage (req : Body) :=
  request Nakama_Realtime_ChannelMessageAck (OneOf_Message.channelMessageRemove req).
Definition writeChatMessage (req : Body) :=
  request Nakama_Realtime_ChannelMessageAck (OneOf_Message.channelMessageSend req).
Definition updateChatMessage (req : Body) :=
  request Nakama_Realtime_ChannelMessageAck (OneOf_Message.channelMessageUpdate req).
Definition createMatch (req : Body) :=
  request Nakama_Realtime_Match (OneOf_Message.matchCreate req).
Definition joinMatch (req : Body) :=
  request Nakama_Realtime_Match (OneOf_Message.matchJoin req).
Definition joinMatchToken (req : Body) :=
  request Nakama_Realtime_Match (OneOf_Message.matchJoin req).
Definition leaveMatch (req : Body) :=
  request Google_Protobuf_Empty (OneOf_Message.matchLeave req).
Definition addMatchmaker (req : Body) :=
  request Nakama_Realtime_MatchmakerTicket (OneOf_Message.matchmakerAdd req).
Definition removeMatchmaker (req : Body) :=
  request Google_Protobuf_Empty (OneOf_Message.matchmakerRemove req).
Definition rpc (req : Body) :=
  request Nakama_Api_Rpc (OneOf_Message.rpc req).
Definition followUsers (req : Body) :=
  request Nakama_Realtime_Status (OneOf_Message.statusFollow req).
Definition unfollowUsers (req : Body) :=
  request Google_Protobuf_Empty (OneOf_Message.statusUnfollow req).
Definition updateStatus (req : Body) :=
  request Google_Protobuf_Empty (OneOf_Message.statusUpdate req).
Definition createParty (req : Body) :=
  request Nakama_Realtime_Party (OneOf_Message.partyCreate req).
Definition joinParty (req : Body) :=
  request Google_Protobuf_Empty (OneOf_Message.partyJoin req).
Definition leaveParty (req : Body) :=
  request Google_Protobuf_Empty (OneOf_Message.partyLeave req).
Definition closeParty (req : Body) :=
  request Google_Protobuf_Empty (OneOf_Message.partyClose req).
Definition acceptPartyMember (req : Body) :=
  request Google_Protobuf_Empty (OneOf_Message.partyAccept req).
Definition removePartyMember (req : Body) :=
  request Google_Protobuf_Empty (OneOf_Message.partyRemove req).
Definition addMatchmakerParty (req : Body) :=
  request Nakama_Realtime_PartyMatchmakerTicket (OneOf_Message.partyMatchmakerAdd req).
Definition removeMatchmakerParty (req : Body) :=
  request Google_Protobuf_Empty (OneOf_Message.partyMatchmakerRemove req).
Definition listPartyJoinRequests (req : Body) :=
  request Nakama_Realtime_PartyJoinRequest (OneOf_Message.partyJoinRequestList req).
Definition promotePartyMember (req : Body) :=
  request Google_Protobuf_Empty (OneOf_Message.partyPromote req).

End Requests.

(** ** The socket in use

    What can happen to a socket, one thing after the other: its owner calls
    a method or assigns a handler property, or the adapter calls one of the
    closures installed by [init]. *)

Inductive Operation :=
| op_connect (session : Session) (appearOnline : option bool)
| op_disconnect
| op_send (T : MessageType) (env : Nakama_Realtime_Envelope)
| op_sendMatchData (matchId : string) (opCode : Z) (data : Data)
    (presences : option (list Body))
| op_sendMatchData_String (matchId : string) (opCode : Z) (data : string)
    (presences : option (list Body))
| op_sendPartyData_String (partyId : string) (opCode : Z) (data : string)
| op_assign (h : Handler) (set : bool)
| op_adapter_onConnect
| op_adapter_onDisconnect
| op_adapter_onError (error : SwiftError)
| op_adapter_onReceiveData (data : Data).

Section Operations.

Variable pb : Codec.

Definition perform (op : Operation) (s : Socket) : Exec Socket :=
  match op with
  | op_connect session appearOnline => Done (connect session appearOnline s)
  | op_disconnect => Done (disconnect s)
  | op_send T env => Done (fst (fst (send pb T env s)))
  | op_sendMatchData matchId opCode data presences =>
      sendMatchData pb matchId opCode data presences s
  | op_sendMatchData_String matchId opCode data presences =>
      bind (sendMatchData_String pb matchId opCode data presences s)
           (fun r => Done (fst r))
  | op_sendPartyData_String partyId opCode data =>
      Done (fst (sendPartyData_String pb partyId opCode data s))
  | op_assign h set => Done (with_handler h set s)
  | op_adapter_onConnect => Done (socketAdapter_onConnect s)
  | op_adapter_onDisconnect => Done (socketAdapter_onDisconnect s)
  | op_adapter_onError error => Done (socketAdapter_onError error s)
  | op_adapter_onReceiveData data => onReceivedData pb data s
  end.

Fixpoint perform_all (ops : list Operation) (s : Socket) : Exec Socket :=
  match ops with
  | [] => Done s
  | op :: ops => bind (perform op s) (perform_all ops)
  end.

End Operations.

(** The message types of the calls of [send] among [ops], in order. *)
Fixpoint sent_types (ops : list Operation) : list MessageType :=
  match ops with
  | [] => []
  | op_send T _ :: ops => T :: sent_types ops
  | _ :: ops => sent_types ops
  end.

Definition is_delivery (op : Operation) : bool :=
  match op with
  | op_adapter_onReceiveData _ => true
  | _ => false
  end.

(** Every promise stored in the dictionary has a future. *)
Definition all_allocated (s : Socket) : Prop :=
  forall c promise,
    collatedPromises s !! c = Some promise ->
    (futureResult promise < length (futures s))%nat.

(** The message kinds named by a case of the uncollated switch. *)
Definition has_push_case (m : option OneOf_Message.t) : bool :=
  match m with
  | Some (OneOf_Message.error _)
  | Some (OneOf_Message.channelMessage _)
  | Some (OneOf_Message.channelPresenceEvent _)
  | Some (OneOf_Message.matchData _)
  | Some (OneOf_Message.matchPresenceEvent _)
  | Some (OneOf_Message.matchmakerMatched _)
  | Some (OneOf_Message.notifications _)
  | Some (OneOf_Message.statusPresenceEvent _)
  | Some (OneOf_Message.streamData _)
  | Some (OneOf_Message.streamPresenceEvent _)
  | Some (OneOf_Message.party _)
  | Some (OneOf_Message.partyJoinRequest _)
  | Some (OneOf_Message.partyData _)
  | Some (OneOf_Message.partyPresenceEvent _)
  | Some (OneOf_Message.partyMatchmakerTicket _)
  | Some (OneOf_Message.partyClose _)
  | Some (OneOf_Message.partyLeader _) => true
  | _ => false
  end.

(** The id that the next call of [send] draws. *)
Definition next_id (s : Socket) : string :=
  String_of_Int (Int_wrap (collationCounter s + 1)).

(** The counter holds an [Int]. *)
Definition counter_in_range (s : Socket) : Prop :=
  - 2 ^ 63 <= collationCounter s < 2 ^ 63.

(** A reply carrying [m] completes a promise of type [T]: [m] is of the
    kind whose typed case casts to [T], or [T] is the empty message and [m]
    falls to the error case or the default case. *)
Definition resolves (T : MessageType) (m : option OneOf_Message.t) : Prop :=
  typed_case m = Some T \/ (T = Google_Protobuf_Empty /\ typed_case m = None).

(** The promise is pending, and whatever is stored in the dictionary with
    its future is a promise of [Nakama_Realtime_PartyJoinRequest]. *)
Definition awaits_join_requests (promise : EventLoopPromise) (s : Socket) : Prop :=
  pending promise s /\
  forall c q,
    collatedPromises s !! c = Some q ->
    futureResult q = futureResult promise ->
    Value q = Nakama_Realtime_PartyJoinRequest.

(** * The code generator

    [main.go] turns a swagger description into Swift source.  Modelled here
    are its functions that work on bytes and on the decoded schema; a Go
    string is its sequence of bytes. *)

Module Codegen.

(** [strings.HasPrefix]. *)
Fixpoint HasPrefix (s prefix : string) {struct prefix} : bool :=
  match prefix with
  | EmptyString => true
  | String p prefix =>
      match s with
      | EmptyString => false
      | String c s => Ascii.eqb p c && HasPrefix s prefix
      end
  end.

(** [strings.TrimPrefix]: [s] without the leading [prefix], or [s] itself
    when it does not start with it. *)
Fixpoint drop (n : nat) (s : string) : string :=
  match n, s with
  | S n, String _ s => drop n s
  | _, _ => s
  end.

Definition TrimPrefix (s prefix : string) : string :=
  if HasPrefix s prefix then drop (String.length prefix) s else s.

(** [strings.Replace(s, old, new, n)] for a non-empty [old]: the first [n]
    instances of [old], found from left to right without overlap, are
    replaced by [new]; all of them when [n] is negative.  [skip] counts the
    bytes of a replaced instance still to pass over, [left] the
    replacements still allowed ([None]: no limit). *)
Fixpoint Replace_from (skip : nat) (left : option nat) (s old new : string) : string :=
  match s with
  | EmptyString => EmptyString
  | String c s' =>
      match skip with
      | S skip => Replace_from skip left s' old new
      | O =>
          match left with
          | Some O => String c (Replace_from O left s' old new)
          | _ =>
              if HasPrefix s old then
                new +:+ Replace_from (String.length old - 1)
                          (option_map Nat.pred left) s' old new
              else String c (Replace_from O left s' old new)
          end
      end
  end.

Definition Replace (s old new : string) (n : Z) : string :=
  Replace_from O (if n <? 0 then None else Some (Z.to_nat n)) s old new.

(** [strings.Split(s, sep)] for a separator of one byte. *)
Fixpoint Split (s : string) (sep : Ascii.ascii) : list string :=
  match s with
  | EmptyString => [EmptyString]
  | String c s =>
      if Ascii.eqb c sep then EmptyString :: Split s sep
      else
        match Split s sep with
        | piece :: pieces => String c piece :: pieces
        | [] => [String c EmptyString]
        end
  end.

Definition LF : Ascii.ascii := Ascii.ascii_of_nat 10.
Definition SP : Ascii.ascii := Ascii.ascii_of_nat 32.
Definition letter_N : Ascii.ascii := Ascii.ascii_of_nat 78.

Definition splitEnumDescription (description : string) : list string :=
  Split description LF.

Definition stripNewlines (input : string) : string :=
  Replace input (String LF EmptyString) " " (-1).

Definition stripOperationPrefix (input : string) : string :=
  Replace input "Nakama_" "" 1.

Definition descriptionOrTitle (description title : string) : string :=
  if decide (description <> "") then description else title.

(** [strings.Join(pieces, sep)] for a separator of one byte. *)
Fixpoint Join (pieces : list string) (sep : Ascii.ascii) : string :=
  match pieces with
  | [] => EmptyString
  | [piece] => piece
  | piece :: pieces => piece +:+ String sep (Join pieces sep)
  end.

(** The number of bytes of [s] equal to [c]. *)
Fixpoint count (c : Ascii.ascii) (s : string) : nat :=
  match s with
  | EmptyString => O
  | String c' s => (if Ascii.eqb c' c then 1 else 0) + count c s
  end.

(** ** The decoded schema *)

Record SchemaProperty := {
  sp_Type : string;
  sp_Description : string
}.

Record ObjectSchema := {
  os_Type : string;
  os_Ref : string;
  os_Properties : gmap string SchemaProperty;
  os_Description : string
}.

Record Items := {
  it_Type : string;
  it_Ref : string
}.

Record AdditionalProperties := {
  ap_Type : string;
  ap_Format : string;
  ap_Ref : string
}.

Record ObjectProperty := {
  op_Type : string;
  op_Ref : string;
  op_Items : Items;
  op_AdditionalProperties : AdditionalProperties;
  op_Format : string;
  op_Description : string;
  op_Title : string
}.

Record ObjectDefinition := {
  od_Properties : gmap string ObjectProperty;
  od_Enum : list string;
  od_Description : string;
  od_Title : string
}.

Record Param := {
  pa_Name : string;
  pa_In : string;
  pa_Required : bool;
  pa_Type : string;
  pa_Items_Type : string;
  pa_Format : string;
  pa_Schema : ObjectSchema
}.

(** An entry of [Paths]: one operation of one path. *)
Record PathOperation := {
  po_Summary : string;
  po_OperationId : string;
  po_Responses_Ok_Schema_Ref : string;
  po_Parameters : list Param;
  po_Security : list (gmap string nat)
}.

(** [Definitions] is [None] when the map is nil (the input had none):
    reading a nil map finds nothing, writing to it panics. *)
Record Schema := {
  Namespace : string;
  Paths : gmap string (gmap string PathOperation);
  Definitions : option (gmap string ObjectDefinition)
}.

(** ** [generateBodyDefinitionFromSchema] *)

(** [param.In == "body" && param.Name == "body" && param.Schema.Ref == ""]. *)
Definition body_without_ref (param : Param) : bool :=
  bool_decide (pa_In param = "body") &&
  bool_decide (pa_Name param = "body") &&
  bool_decide (os_Ref (pa_Schema param) = "").

Definition objectName (namespace : string) (verb : PathOperation) : string :=
  "Api" +:+ TrimPrefix (po_OperationId verb) (namespace +:+ "_") +:+ "Request".

Definition with_Ref (ref : string) (param : Param) : Param :=
  {| pa_Name := pa_Name param; pa_In := pa_In param;
     pa_Required := pa_Required param; pa_Type := pa_Type param;
     pa_Items_Type := pa_Items_Type param; pa_Format := pa_Format param;
     pa_Schema :=
       {| os_Type := os_Type (pa_Schema param); os_Ref := ref;
          os_Properties := os_Properties (pa_Schema param);
          os_Description := os_Description (pa_Schema param) |} |}.

Definition with_Parameters (params : list Param) (verb : PathOperation) : PathOperation :=
  {| po_Summary := po_Summary verb; po_OperationId := po_OperationId verb;
     po_Responses_Ok_Schema_Ref := po_Responses_Ok_Schema_Ref verb;
     po_Parameters := params; po_Security := po_Security verb |}.

(** The definition made for a body parameter. *)
Definition body_definition (param : Param) : ObjectDefinition :=
  {| od_Properties :=
       (fun p => {| op_Type := sp_Type p; op_Ref := "";
                    op_Items := {| it_Type := ""; it_Ref := "" |};
                    op_AdditionalProperties :=
                      {| ap_Type := ""; ap_Format := ""; ap_Ref := "" |};
                    op_Format := ""; op_Description := sp_Description p;
                    op_Title := "" |})
       <$> os_Properties (pa_Schema param);
     od_Enum := [];
     od_Description := os_Description (pa_Schema param);
     od_Title := "" |}.

(** The loop over the parameters of a "put" operation. *)
Fixpoint visit_parameters (objectName : string) (params : list Param)
    (definitions : option (gmap string ObjectDefinition))
    : Exec (list Param * option (gmap string ObjectDefinition)) :=
  match params with
  | [] => Done ([], definitions)
  | param :: params =>
      if body_without_ref param then
        match definitions with
        | None => Trap
        | Some defs =>
            bind (visit_parameters objectName params
                    (Some (<[objectName := body_definition param]> defs)))
                 (fun r => Done (with_Ref ("#/definitions/" +:+ objectName) param :: fst r,
                                 snd r))
        end
      else
        bind (visit_parameters objectName params definitions)
             (fun r => Done (param :: fst r, snd r))
  end.

(** The body of the loop over the paths, for the path [path]. *)
Definition visit_path (path : string) (s : Schema) : Exec Schema :=
  match Paths s !! path with
  | None => Done s
  | Some def =>
      match def !! "put" with
      | None => Done s
      | Some verb =>
          bind (visit_parameters (objectName (Namespace s) verb)
                  (po_Parameters verb) (Definitions s))
               (fun r =>
                  Done {| Namespace := Namespace s;
                          Paths := <[path := <["put" := with_Parameters (fst r) verb]> def]>
                                     (Paths s);
                          Definitions := snd r |})
      end
  end.

(** Go visits the entries of a map in an order of its choosing; [order] is
    the order in which the paths are visited. *)
Fixpoint generateBodyDefinitionFromSchema (order : list string) (s : Schema) : Exec Schema :=
  match order with
  | [] => Done s
  | path :: order => bind (visit_path path s) (generateBodyDefinitionFromSchema order)
  end.

(** What the pass makes of one parameter, of one operation, of one path. *)
Definition referenced (objectName : string) (param : Param) : Param :=
  if body_without_ref param then with_Ref ("#/definitions/" +:+ objectName) param
  else param.

Definition referenced_path (namespace : string) (def : gmap string PathOperation)
    : gmap string PathOperation :=
  match def !! "put" with
  | Some verb =>
      <["put" := with_Parameters
                   (referenced (objectName namespace verb) <$> po_Parameters verb) verb]> def
  | None => def
  end.

(** No "put" operation has a body parameter without a reference. *)
Definition settled (s : Schema) : Prop :=
  forall path def verb param,
    Paths s !! path = Some def ->
    def !! "put" = Some verb ->
    param ∈ po_Parameters verb ->
    body_without_ref param = false.

(** [order] visits every path of [s]. *)
Definition covers (order : list string) (s : Schema) : Prop :=
  forall path, is_Some (Paths s !! path) -> path ∈ order.

End Codegen.

(** A schema in namespace "Nakama" to run the pass on: a "put" operation
    whose body parameter has no reference yet, and a "get" operation. *)
Module CodegenExample.

Definition body_param : Codegen.Param :=
  {| Codegen.pa_Name := "body"; Codegen.pa_In := "body";
     Codegen.pa_Required := true; Codegen.pa_Type := "";
     Codegen.pa_Items_Type := ""; Codegen.pa_Format := "";
     Codegen.pa_Schema :=
       {| Codegen.os_Type := "object"; Codegen.os_Ref := "";
          Codegen.os_Properties :=
            {[ "name"%string := {| Codegen.sp_Type := "string";
                                   Codegen.sp_Description := "The name." |} ]};
          Codegen.os_Description := "An event." |} |}.

Definition id_param : Codegen.Param :=
  {| Codegen.pa_Name := "id"; Codegen.pa_In := "path";
     Codegen.pa_Required := true; Codegen.pa_Type := "string";
     Codegen.pa_Items_Type := ""; Codegen.pa_Format := "";
     Codegen.pa_Schema :=
       {| Codegen.os_Type := ""; Codegen.os_Ref := "";
          Codegen.os_Properties := ∅; Codegen.os_Description := "" |} |}.

Definition put_event : Codegen.PathOperation :=
  {| Codegen.po_Summary := "Update an event.";
     Codegen.po_OperationId := "Nakama_UpdateEvent";
     Codegen.po_Responses_Ok_Schema_Ref := "";
     Codegen.po_Parameters := [id_param; body_param];
     Codegen.po_Security := [] |}.

Definition get_event : Codegen.PathOperation :=
  {| Codegen.po_Summary := "Get an event.";
     Codegen.po_OperationId := "Nakama_GetEvent";
     Codegen.po_Responses_Ok_Schema_Ref := "#/definitions/apiEvent";
     Codegen.po_Parameters := [id_param];
     Codegen.po_Security := [] |}.

Definition paths : gmap string (gmap string Codegen.PathOperation) :=
  {[ "/v2/event/{id}"%string := {[ "put"%string := put_event; "get"%string := get_event ]};
     "/v2/healthcheck"%string := {[ "get"%string := get_event ]} ]}.

Definition schema : Codegen.Schema :=
  {| Codegen.Namespace := "Nakama"; Codegen.Paths := paths;
     Codegen.Definitions := Some ∅ |}.

Definition schema_without_definitions : Codegen.Schema :=
  {| Codegen.Namespace := "Nakama"; Codegen.Paths := paths;
     Codegen.Definitions := None |}.

Definition order : list string := ["/v2/healthcheck"; "/v2/event/{id}"]%string.

End CodegenExample.

(** More sockets and frames to run the definitions on. *)
Module Example2.

(** The codec of [Example], with a tag for a reply that lists the requests
    to join a party. *)
Definition decode (data : Data) : Try Nakama_Realtime_Envelope :=
  match data with
  | Byte.x06 :: rest =>
      Ok {| cid := String.string_of_list_byte rest;
            message_ := Some (OneOf_Message.partyJoinRequest rest) |}
  | _ => Example.decode data
  end.

Definition codec : Codec :=
  {| serializedData := Example.encode;
     init_serializedData := decode;
     jsonString := fun _ => Ok "{}"%string;
     data_using_utf8 := fun s => Some (String.list_byte_of_string s) |}.

(** A socket with a logger and no handler. *)
Definition quiet : Socket := init "127.0.0.1" 7350 false (Some a_logger).

(** A socket listening for channel messages. *)
Definition listening : Socket := with_handler onChannelMessage true Example.socket0.

(** The match reply for "1" has been delivered. *)
Definition match_resolved : Socket :=
  fulfil Example.match_promise (success (decoded [Byte.x31])) Example.match_pending.

(** The first six events of [Example.crossed]: both callers are awaiting. *)
Definition both_awaiting : list Event :=
  [ ev_call Nakama_Realtime_Match Example.createMatch_env;
    ev_call Nakama_Realtime_Match Example.createMatch_env;
    ev_store 1; ev_store 0; ev_transmit 1; ev_transmit 0 ].

(** A day in the life of a socket: two requests, a reply to the second, a
    frame that does not decode, and the transport closing. *)
Definition session_ops : list Operation :=
  [ op_connect {| token := "t" |} None;
    op_adapter_onConnect;
    op_send Nakama_Realtime_Match Example.createMatch_env;
    op_send Google_Protobuf_Empty Example.channelLeave_env;
    op_adapter_onReceiveData (Example.frame Byte.x00 "2");
    op_adapter_onReceiveData [];
    op_adapter_onDisconnect ].

(** What comes after the match reply for "1": the same reply again, the
    transport closing, another request and its reply. *)
Definition after_the_reply : list Operation :=
  [ op_adapter_onReceiveData (Example.frame Byte.x03 "1");
    op_adapter_onDisconnect;
    op_send Nakama_Realtime_Match Example.createMatch_env;
    op_adapter_onReceiveData (Example.frame Byte.x03 "2") ].

(** Operations none of which is a delivery. *)
Definition no_delivery_ops : list Operation :=
  [ op_adapter_onError (AdapterError "reset");
    op_adapter_onDisconnect;
    op_disconnect;
    op_sendPartyData_String "party" 1 "hello";
    op_send Google_Protobuf_Empty Example.channelLeave_env ].

(** Deliveries under id "1" of every sort the example codec knows, but for
    the typed ones. *)
Definition join_request_replies : list Operation :=
  [ op_adapter_onReceiveData (Example.frame Byte.x06 "1");
    op_adapter_onReceiveData (Example.frame Byte.x00 "1");
    op_adapter_onReceiveData (Example.frame Byte.x01 "1");
    op_adapter_onDisconnect ].

End Example2.

(** * Properties *)

Section Properties.

Variable pb : Codec.

(** ** Frame lemmas: what the building blocks leave alone *)

Lemma logger_error_frame l s :
  collatedPromises (logger_error l s) = collatedPromises s /\
  futures (logger_error l s) = futures s /\
  adapter (logger_error l s) = adapter s /\
  effects (logger_error l s) =
    effects s ++ match logger s with Some _ => [logged l] | None => [] end.
Proof.
  unfold logger_error. destruct (logger s); simpl; by rewrite ?app_nil_r.
Qed.

Lemma invoke_frame h s :
  collatedPromises (invoke h s) = collatedPromises s /\
  futures (invoke h s) = futures s /\
  adapter (invoke h s) = adapter s /\
  effects (invoke h s) = effects s ++ (if handlers s h then [called h] else []).
Proof.
  unfold invoke. destruct (handlers s h); simpl; by rewrite ?app_nil_r.
Qed.

Lemma invoke_error_frame h e s :
  collatedPromises (invoke_error h e s) = collatedPromises s /\
  futures (invoke_error h e s) = futures s /\
  adapter (invoke_error h e s) = adapter s /\
  logger (invoke_error h e s) = logger s /\
  handlers (invoke_error h e s) = handlers s /\
  effects (invoke_error h e s) =
    effects s ++ (if handlers s h then [called_with_error h e] else []).
Proof.
  unfold invoke_error. destruct (handlers s h); simpl; by rewrite ?app_nil_r.
Qed.

Lemma invoke_with_frame h b s :
  collatedPromises (invoke_with h b s) = collatedPromises s /\
  futures (invoke_with h b s) = futures s.
Proof. unfold invoke_with. by destruct (handlers s h). Qed.

Lemma logger_error_json_frame line response s s' :
  logger_error_json pb line response s = Done s' ->
  collatedPromises s' = collatedPromises s /\ futures s' = futures s.
Proof.
  unfold logger_error_json. destruct (logger s).
  - destruct (jsonString pb response); [|done]. by intros [= <-].
  - by intros [= <-].
Qed.

Lemma fulfil_collatedPromises promise r s :
  collatedPromises (fulfil promise r s) = collatedPromises s.
Proof.
  unfold fulfil. by destruct (futures s !! futureResult promise) as [[|]|].
Qed.

(** A future that has a result keeps it. *)
Lemma fulfil_keeps promise r s k r0 :
  futures s !! k = Some (Some r0) ->
  futures (fulfil promise r s) !! k = Some (Some r0).
Proof.
  intros Hk. unfold fulfil.
  destruct (futures s !! futureResult promise) as [[|]|] eqn:Hp; simpl; try done.
  destruct (decide (futureResult promise = k)) as [Heq|Hne].
  - rewrite Heq in Hp. congruence.
  - by rewrite list_lookup_insert_ne.
Qed.

Lemma fulfil_length promise r s :
  length (futures (fulfil promise r s)) = length (futures s).
Proof.
  unfold fulfil.
  destruct (futures s !! futureResult promise) as [[|]|]; simpl; try done.
  by rewrite length_insert.
Qed.

(** Completing a pending promise stores the result. *)
Lemma fulfil_pending promise r s :
  futures s !! futureResult promise = Some None ->
  futures (fulfil promise r s) !! futureResult promise = Some (Some r).
Proof.
  intros Hp. unfold fulfil. rewrite Hp. simpl.
  apply list_lookup_insert_eq. by eapply lookup_lt_Some.
Qed.

Lemma fulfil_other promise r s k :
  k <> futureResult promise ->
  futures (fulfil promise r s) !! k = futures s !! k.
Proof.
  intros Hne. unfold fulfil.
  destruct (futures s !! futureResult promise) as [[|]|]; simpl; try done.
  by rewrite list_lookup_insert_ne.
Qed.

Lemma cast_Some X collatedPromise promise :
  cast X collatedPromise = Some promise ->
  promise = collatedPromise /\ X = MessageT (Value collatedPromise).
Proof. unfold cast. case_decide; naive_solver. Qed.

Lemma cast_Any collatedPromise : cast AnyT collatedPromise = None.
Proof. unfold cast. by case_decide. Qed.

Lemma cast_own collatedPromise :
  cast (MessageT (Value collatedPromise)) collatedPromise = Some collatedPromise.
Proof. unfold cast. by case_decide. Qed.

Lemma cast_other T collatedPromise :
  Value collatedPromise <> T -> cast (MessageT T) collatedPromise = None.
Proof. unfold cast. case_decide; naive_solver. Qed.

(** ** Frames that are dropped *)

(** C6. A frame that fails to decode, or a reply whose id is not in the
    dictionary, makes [onReceivedData] return normally: the dictionary,
    the futures and the calls on the adapter are unchanged, the only
    effects are the log line and, for a decode failure, the call of
    [onError]; the frames after it are processed from that state. *)
Theorem onReceivedData_drops_and_continues (data : Data) (s : Socket) :
  dropped pb data s ->
  exists s',
    onReceivedData pb data s = Done s' /\
    collatedPromises s' = collatedPromises s /\
    futures s' = futures s /\
    adapter s' = adapter s /\
    effects s' = effects s ++ dropped_effects pb data s /\
    forall frames, receive_all pb (data :: frames) s = receive_all pb frames s'.
Proof.
  unfold dropped, dropped_effects, onReceivedData.
  destruct (init_serializedData pb data) as [response|error] eqn:Hdec.
  - intros [Hcid Habsent].
    exists (logger_error (No_matching_promise (cid response)) s).
    rewrite decide_False by done. rewrite Habsent.
    destruct (logger_error_frame (No_matching_promise (cid response)) s)
      as (Hm & Hf & Ha & He).
    repeat split; try done.
    intros frames. simpl. unfold onReceivedData.
    rewrite Hdec, decide_False by done. by rewrite Habsent.
  - intros _.
    exists (invoke_error onError error
              (logger_error (Failed_to_deserialise error) s)).
    destruct (logger_error_frame (Failed_to_deserialise error) s)
      as (Hm & Hf & Ha & He).
    destruct (invoke_error_frame onError error
                (logger_error (Failed_to_deserialise error) s))
      as (Hm' & Hf' & Ha' & _ & _ & He').
    repeat split; try congruence.
    + rewrite He', He, <- app_assoc. do 2 f_equal.
      unfold logger_error. by destruct (logger s).
    + intros frames. simpl. unfold onReceivedData. by rewrite Hdec.
Qed.

(** ** Resolution of a reply *)

Lemma succeed_as_Done T collatedPromise x s s' :
  succeed_as T collatedPromise x s = Done s' ->
  Value collatedPromise = T /\ s' = succeed collatedPromise (decoded x) s.
Proof.
  unfold succeed_as, force_cast.
  destruct (cast (MessageT T) collatedPromise) as [promise|] eqn:Hc; [|done].
  apply cast_Some in Hc as [-> [= ->]]. by intros [= <-].
Qed.

Lemma succeed_as_own collatedPromise x s :
  succeed_as (Value collatedPromise) collatedPromise x s
  = Done (succeed collatedPromise (decoded x) s).
Proof. unfold succeed_as, force_cast. by rewrite cast_own. Qed.

Lemma succeed_as_other T collatedPromise x s :
  Value collatedPromise <> T -> succeed_as T collatedPromise x s = Trap.
Proof. intros H. unfold succeed_as, force_cast. by rewrite cast_other. Qed.

(** Whatever the collated switch does, it does to the future of the
    promise it was given, and by [fulfil] with what the message carries;
    or it leaves the futures alone. *)
Lemma onReceivedData_collated_Done collatedPromise response s s' :
  onReceivedData_collated pb collatedPromise response s = Done s' ->
  collatedPromises s' = collatedPromises s /\
  (futures s' = futures s \/
   futures s' = futures (fulfil collatedPromise (carried (message_ response)) s)).
Proof.
  assert (Hdefault : forall s1,
    logger_error_json pb Unrecognised_collated response s = Done s1 ->
    match cast (MessageT Google_Protobuf_Empty) collatedPromise with
    | Some promise => Done (succeed promise Google_Protobuf_Empty_init s1)
    | None => Done s1
    end = Done s' ->
    collatedPromises s' = collatedPromises s /\
    (futures s' = futures s \/
     futures s' = futures (fulfil collatedPromise (success Google_Protobuf_Empty_init) s))).
  { intros s1 [Hm Hf]%logger_error_json_frame.
    destruct (cast (MessageT Google_Protobuf_Empty) collatedPromise)
      as [promise|] eqn:Hc.
    - apply cast_Some in Hc as [Hp _]. subst promise. intros [= <-].
      unfold succeed. split; [by rewrite fulfil_collatedPromises|].
      right. unfold fulfil. rewrite Hf.
      by destruct (futures s !! futureResult collatedPromise) as [[|]|].
    - intros [= <-]. by split; [|left]. }
  unfold onReceivedData_collated.
  destruct (message_ response) as [[]|]; cbn [carried bind];
    try (intros [_ Hs]%succeed_as_Done; subst s'; unfold succeed; split;
         [apply fulfil_collatedPromises | by right]);
    try (destruct (logger_error_json pb Unrecognised_collated response s)
           as [s1|] eqn:Hlog; cbn [bind]; [by apply Hdefault | done]).
  rewrite cast_Any.
  destruct (cast (MessageT Google_Protobuf_Empty) collatedPromise)
    as [promise|] eqn:Hc.
  - apply cast_Some in Hc as [Hp _]. subst promise. intros [= <-].
    unfold fail. split; [apply fulfil_collatedPromises | by right].
  - intros [= <-]. by split; [|left].
Qed.

Lemma onReceivedData_uncollated_Done response s s' :
  onReceivedData_uncollated pb response s = Done s' ->
  collatedPromises s' = collatedPromises s /\ futures s' = futures s.
Proof.
  unfold onReceivedData_uncollated.
  destruct (message_ response) as [[]|];
    try (intros [= <-]; first [apply invoke_with_frame | by split]);
    try apply logger_error_json_frame.
  intros [= <-]. by destruct (invoke_error_frame onError
                                (NakamaRealtimeError_error e) s) as (? & ? & _).
Qed.

(** One delivery changes the futures at most by one [fulfil], of the
    promise stored under the reply's id, with what the reply carries. *)
Lemma onReceivedData_Done data s s' :
  onReceivedData pb data s = Done s' ->
  collatedPromises s' = collatedPromises s /\
  (futures s' = futures s \/
   exists response collatedPromise,
     init_serializedData pb data = Ok response /\
     cid response <> "" /\
     collatedPromises s !! cid response = Some collatedPromise /\
     futures s' = futures (fulfil collatedPromise (carried (message_ response)) s)).
Proof.
  unfold onReceivedData.
  destruct (init_serializedData pb data) as [response|error] eqn:Hdec.
  - case_decide as Hcid.
    + intros [Hm Hf]%onReceivedData_uncollated_Done. by split; [|left].
    + destruct (collatedPromises s !! cid response) as [collatedPromise|] eqn:Hl.
      * intros [Hm [Hf|Hf]]%onReceivedData_collated_Done; split; try done;
          [by left | right; by exists response, collatedPromise].
      * intros [= <-].
        destruct (logger_error_frame (No_matching_promise (cid response)) s)
          as (? & ? & _). by split; [|left].
  - intros [= <-].
    destruct (logger_error_frame (Failed_to_deserialise error) s) as (Hm & Hf & _).
    destruct (invoke_error_frame onError error
                (logger_error (Failed_to_deserialise error) s)) as (Hm' & Hf' & _).
    split; [congruence | left; congruence].
Qed.

(** C5, as the code has it.  No resolution removes an entry: when
    [onReceivedData] returns, the dictionary is what it was, and so it is
    after the closures run on a disconnect or a transport error; a reply
    for an id that was answered before finds the same promise again, and a
    promise that has a result keeps it. *)
Theorem entries_are_never_removed (data : Data) (error : SwiftError) (s s' : Socket) :
  onReceivedData pb data s = Done s' ->
  collatedPromises s' = collatedPromises s /\
  collatedPromises (socketAdapter_onDisconnect s) = collatedPromises s /\
  collatedPromises (socketAdapter_onError error s) = collatedPromises s /\
  forall promise r, result_of promise s = Some r -> result_of promise s' = Some r.
Proof.
  intros [Hm Hf]%onReceivedData_Done.
  repeat split; try done.
  - apply invoke_frame.
  - apply invoke_error_frame.
  - intros promise r. unfold result_of.
    destruct (futures s !! futureResult promise) as [[r0|]|] eqn:Hk; try done.
    intros [= ->].
    destruct Hf as [->|(response & collatedPromise & _ & _ & _ & ->)].
    + by rewrite Hk.
    + by erewrite fulfil_keeps.
Qed.

(** An error reply is ignored unless the request awaits the empty
    message: neither conditional cast succeeds. *)
Lemma error_reply_ignored collatedPromise response error s :
  message_ response = Some (OneOf_Message.error error) ->
  Value collatedPromise <> Google_Protobuf_Empty ->
  onReceivedData_collated pb collatedPromise response s = Done s.
Proof.
  intros Hm HT. unfold onReceivedData_collated. rewrite Hm, cast_Any.
  by rewrite cast_other.
Qed.

(** An error reply fails a pending request for the empty message. *)
Lemma error_reply_fails_empty collatedPromise response error s :
  message_ response = Some (OneOf_Message.error error) ->
  Value collatedPromise = Google_Protobuf_Empty ->
  onReceivedData_collated pb collatedPromise response s
  = Done (fail collatedPromise (NakamaRealtimeError_error error) s).
Proof.
  intros Hm HT. unfold onReceivedData_collated. rewrite Hm, cast_Any.
  by rewrite <- HT, cast_own.
Qed.

(** A reply of the kind the request awaits succeeds the promise with the
    value carried. *)
Lemma matching_reply_succeeds collatedPromise response s :
  typed_case (message_ response) = Some (Value collatedPromise) ->
  onReceivedData_collated pb collatedPromise response s
  = Done (fulfil collatedPromise (carried (message_ response)) s).
Proof.
  unfold onReceivedData_collated, typed_case.
  destruct (message_ response) as [[]|]; try done;
    intros [= ->]; apply succeed_as_own.
Qed.

(** The default branch: the log statement, then success of a promise for
    the empty message. *)
Lemma default_branch collatedPromise response s :
  is_error (message_ response) = false ->
  typed_case (message_ response) = None ->
  onReceivedData_collated pb collatedPromise response s
  = bind (logger_error_json pb Unrecognised_collated response s) (fun s =>
      match cast (MessageT Google_Protobuf_Empty) collatedPromise with
      | Some promise => Done (succeed promise Google_Protobuf_Empty_init s)
      | None => Done s
      end).
Proof.
  unfold onReceivedData_collated, typed_case, is_error.
  by destruct (message_ response) as [[]|].
Qed.

Lemma typed_branch_other collatedPromise response T s :
  typed_case (message_ response) = Some T ->
  Value collatedPromise <> T ->
  onReceivedData_collated pb collatedPromise response s = Trap.
Proof.
  unfold onReceivedData_collated, typed_case.
  destruct (message_ response) as [[]|]; try done;
    intros [= <-] H; by apply succeed_as_other.
Qed.

Lemma onReceivedData_found data response collatedPromise s :
  init_serializedData pb data = Ok response ->
  cid response <> "" ->
  collatedPromises s !! cid response = Some collatedPromise ->
  onReceivedData pb data s = onReceivedData_collated pb collatedPromise response s.
Proof.
  intros Hdec Hcid Hl. unfold onReceivedData.
  by rewrite Hdec, decide_False, Hl.
Qed.

(** A reply of the awaited kind, found under its id, resolves the pending
    request with the value it carries and touches no other future. *)
Lemma reply_resolves_own_request data response collatedPromise s :
  init_serializedData pb data = Ok response ->
  cid response <> "" ->
  collatedPromises s !! cid response = Some collatedPromise ->
  typed_case (message_ response) = Some (Value collatedPromise) ->
  pending collatedPromise s ->
  exists s',
    onReceivedData pb data s = Done s' /\
    result_of collatedPromise s' = Some (carried (message_ response)) /\
    forall k, k <> futureResult collatedPromise -> futures s' !! k = futures s !! k.
Proof.
  intros Hdec Hcid Hl Hcase Hp.
  rewrite (onReceivedData_found _ _ _ _ Hdec Hcid Hl).
  rewrite matching_reply_succeeds by done.
  eexists. split; [done|]. split.
  - unfold result_of. by rewrite fulfil_pending.
  - intros k Hk. by apply fulfil_other.
Qed.

(** C4, as the code has it.  A reply found in the dictionary, not an
    error, of a kind other than the specific kind its request awaits,
    never completes the request.  When the reply is of one of the eight
    kinds with a typed case, the forced cast traps.  Otherwise delivery is
    the log statement alone: it traps if the envelope cannot be rendered
    for the logger and else returns with the futures and the dictionary
    unchanged. *)
Theorem mismatched_reply (data : Data) (response : Nakama_Realtime_Envelope)
    (collatedPromise : EventLoopPromise) (s : Socket) :
  init_serializedData pb data = Ok response ->
  cid response <> "" ->
  collatedPromises s !! cid response = Some collatedPromise ->
  is_error (message_ response) = false ->
  Value collatedPromise <> Google_Protobuf_Empty ->
  typed_case (message_ response) <> Some (Value collatedPromise) ->
  match typed_case (message_ response) with
  | Some _ => onReceivedData pb data s = Trap
  | None =>
      onReceivedData pb data s
      = logger_error_json pb Unrecognised_collated response s /\
      (json_loggable pb response s -> exists s', onReceivedData pb data s = Done s')
  end /\
  forall s', onReceivedData pb data s = Done s' ->
    futures s' = futures s /\ collatedPromises s' = collatedPromises s.
Proof.
  intros Hdec Hcid Hl Herr HT Hmis.
  rewrite (onReceivedData_found _ _ _ _ Hdec Hcid Hl).
  destruct (typed_case (message_ response)) as [T|] eqn:Hcase.
  - assert (Value collatedPromise <> T) by congruence.
    rewrite (typed_branch_other _ _ T) by done. by split.
  - rewrite default_branch by done. rewrite cast_other by done.
    assert (Heq : bind (logger_error_json pb Unrecognised_collated response s)
                    (fun s0 => Done s0)
                  = logger_error_json pb Unrecognised_collated response s)
      by by destruct (logger_error_json pb Unrecognised_collated response s).
    rewrite Heq. repeat split.
    + unfold logger_error_json. intros [Hlog|[json Hjson]].
      * rewrite Hlog. by eexists.
      * rewrite Hjson. destruct (logger s); by eexists.
    + by apply logger_error_json_frame in H as [? ?].
    + by apply logger_error_json_frame in H as [? ?].
Qed.

(** C7, as the code has it.  A pending request that awaits the empty
    message is completed successfully, with the empty message, by a reply
    under its id that carries no payload or a payload that is neither an
    error nor of one of the eight kinds with a typed case, provided the
    log statement of that branch can render the envelope. *)
Theorem empty_request_acknowledged (data : Data) (response : Nakama_Realtime_Envelope)
    (collatedPromise : EventLoopPromise) (s : Socket) :
  init_serializedData pb data = Ok response ->
  cid response <> "" ->
  collatedPromises s !! cid response = Some collatedPromise ->
  Value collatedPromise = Google_Protobuf_Empty ->
  pending collatedPromise s ->
  is_error (message_ response) = false ->
  typed_case (message_ response) = None ->
  json_loggable pb response s ->
  exists s',
    onReceivedData pb data s = Done s' /\
    result_of collatedPromise s' = Some (success Google_Protobuf_Empty_init).
Proof.
  intros Hdec Hcid Hl HT Hp Herr Hcase Hjson.
  rewrite (onReceivedData_found _ _ _ _ Hdec Hcid Hl).
  rewrite default_branch by done. rewrite <- HT, cast_own.
  assert (exists s1, logger_error_json pb Unrecognised_collated response s = Done s1
                     /\ futures s1 = futures s) as (s1 & -> & Hf).
  { unfold logger_error_json. destruct Hjson as [Hlog|[json Hj]].
    - rewrite Hlog. by eexists.
    - rewrite Hj. destruct (logger s); by eexists. }
  simpl. eexists. split; [done|].
  unfold result_of, succeed. rewrite fulfil_pending; [done|].
  unfold pending in Hp. by rewrite Hf.
Qed.


(** ** Schedules *)

Lemma answered_by_later events ev a r :
  answered_by pb events a r -> answered_by pb (events ++ [ev]) a r.
Proof.
  intros (data & response & Hin & H). exists data, response.
  split; [|done]. apply elem_of_app. by left.
Qed.

Lemma consistent_later events ev w :
  consistent pb events w -> consistent pb (events ++ [ev]) w.
Proof.
  intros [H1 H2 H3 H4]. split; try done.
  intros i a r Ha Hr. eauto using answered_by_later.
Qed.

(** Moving an activation to another program point changes neither its id
    nor its promise. *)
Lemma lookup_at_stage (ts : list Activation) i a st j b :
  ts !! i = Some a ->
  <[i := at_stage st a]> ts !! j = Some b ->
  exists b0, ts !! j = Some b0 /\
             act_promise b0 = act_promise b /\ act_counter b0 = act_counter b.
Proof.
  intros Ha Hb. destruct (decide (i = j)) as [->|Hne].
  - rewrite list_lookup_insert_eq in Hb by by eapply lookup_lt_Some.
    injection Hb as <-. by exists a.
  - rewrite list_lookup_insert_ne in Hb by done. by exists b.
Qed.

(** The tasks change only in program points, the futures not at all. *)
Lemma consistent_restage events ev w i a st s' :
  consistent pb events w ->
  tasks w !! i = Some a ->
  futures s' = futures (socket w) ->
  (forall c promise, collatedPromises s' !! c = Some promise ->
     collatedPromises (socket w) !! c = Some promise \/
     (promise = act_promise a /\ c = act_counter a)) ->
  consistent pb (events ++ [ev])
    {| socket := s'; tasks := <[i := at_stage st a]> (tasks w) |}.
Proof.
  intros [H1 H2 H3 H4] Ha Hf Hm. split; simpl.
  - intros c promise [Hold|[-> ->]]%Hm.
    + destruct (H1 _ _ Hold) as (j & b & Hb & Hp & Hc).
      destruct (decide (i = j)) as [->|Hne].
      * exists j, (at_stage st a).
        rewrite list_lookup_insert_eq by by eapply lookup_lt_Some.
        assert (a = b) as -> by congruence. done.
      * exists j, b. by rewrite list_lookup_insert_ne.
    + exists i, (at_stage st a).
      by rewrite list_lookup_insert_eq by by eapply lookup_lt_Some.
  - intros j b (b0 & Hb0 & <- & _)%(lookup_at_stage _ _ _ _ _ _ Ha).
    rewrite Hf. eauto.
  - intros j k b c (b0 & Hb0 & <- & _)%(lookup_at_stage _ _ _ _ _ _ Ha)
      (c0 & Hc0 & <- & _)%(lookup_at_stage _ _ _ _ _ _ Ha). eauto.
  - intros j b r (b0 & Hb0 & Hp & Hc)%(lookup_at_stage _ _ _ _ _ _ Ha).
    rewrite Hf, <- Hp. intros Hr.
    destruct (H4 _ _ _ Hb0 Hr) as (data & response & Hin & Hdec & Hcid & Hcar).
    exists data, response. repeat split; try done; [|congruence].
    apply elem_of_app. by left.
Qed.

Lemma step_consistent events w ev w' :
  consistent pb events w ->
  step pb w ev = Done w' ->
  consistent pb (events ++ [ev]) w'.
Proof.
  intros Hw. destruct ev as [T env|i|i|data]; simpl.
  - (* a caller enters [send] *)
    intros [= <-]. destruct Hw as [H1 H2 H3 H4]. split; simpl.
    + intros c promise (i & a & Ha & Hp)%H1. exists i, a.
      split; [|done]. by apply lookup_app_l_Some.
    + intros i a [Ha|[_ Ha]]%lookup_app_Some; rewrite length_app; simpl.
      * apply H2 in Ha. lia.
      * destruct (i - length (tasks w))%nat; [|done].
        injection Ha as <-. simpl. lia.
    + intros i j a b [Ha|[Hi Ha]]%lookup_app_Some [Hb|[Hj Hb]]%lookup_app_Some.
      * eauto.
      * destruct (j - length (tasks w))%nat; [|done].
        injection Hb as <-. simpl. apply H2 in Ha. lia.
      * destruct (i - length (tasks w))%nat; [|done].
        injection Ha as <-. simpl. apply H2 in Hb. lia.
      * intros _.
        destruct (i - length (tasks w))%nat eqn:Ei; [|done].
        destruct (j - length (tasks w))%nat eqn:Ej; [|done]. lia.
    + intros i a r [Ha|[_ Ha]]%lookup_app_Some.
      * rewrite lookup_app_l by eauto. intros Hr.
        eauto using answered_by_later.
      * destruct (i - length (tasks w))%nat; [|done].
        injection Ha as <-. simpl. by rewrite lookup_app_r, Nat.sub_diag.
  - (* an activation stores its promise *)
    destruct (tasks w !! i) as [a|] eqn:Ha;
      [|intros [= <-]; by apply consistent_later].
    destruct (act_stage a); try (intros [= <-]; by apply consistent_later).
    intros [= <-]. apply consistent_restage; try done.
    intros c promise. simpl.
    destruct (decide (act_counter a = c)) as [<-|Hne].
    * rewrite lookup_insert_eq. intros [= <-]. by right.
    * rewrite lookup_insert_ne by done. by left.
  - (* an activation encodes and transmits *)
    destruct (tasks w !! i) as [a|] eqn:Ha;
      [|intros [= <-]; by apply consistent_later].
    destruct (act_stage a); try (intros [= <-]; by apply consistent_later).
    unfold send_transmit.
    destruct (serializedData pb (set_cid (act_counter a) (act_env a)));
      intros [= <-]; apply consistent_restage; try done; by left.
  - (* the adapter delivers a frame *)
    destruct (onReceivedData pb data (socket w)) as [s'|] eqn:Hrecv; [|done].
    simpl. intros [= <-].
    apply onReceivedData_Done in Hrecv as [Hm Hf].
    destruct Hw as [H1 H2 H3 H4]. split; simpl.
    + rewrite Hm. eauto.
    + intros i a Ha%H2.
      destruct Hf as [->|(? & ? & _ & _ & _ & ->)]; [done|].
      by rewrite fulfil_length.
    + eauto.
    + intros i a r Ha Hr.
      destruct Hf as [Hf|(response & collatedPromise & Hdec & Hcid & Hl & Hf)].
      { rewrite Hf in Hr. eauto using answered_by_later. }
      rewrite Hf in Hr.
      destruct (futures (socket w) !! futureResult (act_promise a))
        as [[r0|]|] eqn:Hold.
      * erewrite fulfil_keeps in Hr by done. injection Hr as <-.
        eauto using answered_by_later.
      * destruct (decide (futureResult (act_promise a) = futureResult collatedPromise))
          as [Heq|Hne].
        -- destruct (H1 _ _ Hl) as (j & b & Hb & Hp & Hc).
           assert (i = j) as -> by (eapply H3; eauto; congruence).
           assert (a = b) as -> by congruence.
           rewrite Heq, fulfil_pending in Hr by congruence.
           injection Hr as <-.
           exists data, response. repeat split; try done.
           apply elem_of_app. right. by apply list_elem_of_singleton.
        -- rewrite fulfil_other in Hr by done. congruence.
      * apply H2 in Ha. apply lookup_ge_None in Hold. lia.
Qed.

Lemma run_consistent events' events w w' :
  consistent pb events w ->
  run pb events' w = Done w' ->
  consistent pb (events ++ events') w'.
Proof.
  revert events w. induction events' as [|ev events' IH]; intros events w Hw; simpl.
  - intros [= <-]. by rewrite app_nil_r.
  - destruct (step pb w ev) as [w1|] eqn:Hstep; [|done]. simpl.
    intros Hrun. replace (events ++ ev :: events') with ((events ++ [ev]) ++ events')
      by by rewrite <- app_assoc.
    eapply IH; [|done]. by eapply step_consistent.
Qed.

Lemma consistent_initially s0 :
  collatedPromises s0 = ∅ -> consistent pb [] {| socket := s0; tasks := [] |}.
Proof. intros H0. split; simpl; try done. intros c promise. by rewrite H0. Qed.


(** ** Disconnects *)

(** C1, as the code has it.  The closures that the adapter calls when the
    transport closes or fails only invoke the [onDisconnect] or [onError]
    handler, when it is set: the dictionary and every future are left as
    they were, so a pending request stays pending. *)
Theorem disconnect_closures_keep_pending (error : SwiftError) (s : Socket) :
  (collatedPromises (socketAdapter_onDisconnect s) = collatedPromises s /\
   futures (socketAdapter_onDisconnect s) = futures s /\
   effects (socketAdapter_onDisconnect s) =
     effects s ++ (if handlers s onDisconnect then [called onDisconnect] else [])) /\
  (collatedPromises (socketAdapter_onError error s) = collatedPromises s /\
   futures (socketAdapter_onError error s) = futures s /\
   effects (socketAdapter_onError error s) =
     effects s ++ (if handlers s onError then [called_with_error onError error] else [])).
Proof.
  unfold socketAdapter_onDisconnect, socketAdapter_onError.
  destruct (invoke_frame onDisconnect s) as (? & ? & _ & ?).
  destruct (invoke_error_frame onError error s) as (? & ? & _ & _ & _ & ?).
  done.
Qed.

(** ** One-way sends *)

(** [sendMatchData] hands the encoded envelope to the adapter and touches
    nothing else. *)
Lemma sendMatchData_sends matchId opCode data presences s binaryData :
  serializedData pb
    {| cid := "";
       message_ := Some (OneOf_Message.matchDataSend
         {| mds_matchID := matchId; mds_opCode := opCode; mds_data := data;
            mds_presences := default [] presences |}) |} = Ok binaryData ->
  exists s',
    sendMatchData pb matchId opCode data presences s = Done s' /\
    adapter s' = adapter s ++ [adapter_send binaryData] /\
    collatedPromises s' = collatedPromises s /\
    futures s' = futures s.
Proof. intros H. unfold sendMatchData. rewrite H. by eexists. Qed.

(** C9, at the [String] overload of [sendPartyData]: whatever the
    arguments, the socket is returned as it was; in particular no bytes
    reach the adapter. *)
Theorem sendPartyData_String_sends_nothing
    (partyId : string) (opCode : Z) (data : string) (s : Socket) :
  fst (sendPartyData_String pb partyId opCode data s) = s /\
  adapter (fst (sendPartyData_String pb partyId opCode data s)) = adapter s.
Proof.
  unfold sendPartyData_String. by destruct (data_using_utf8 pb data).
Qed.

End Properties.

(** ** Opening the connection *)

(** C10. [connect] makes one call on the adapter, to connect to the URL
    with scheme "wss" or "ws" according to [ssl], the socket's host and
    port, path "/ws" and the query items token and format=protobuf,
    followed by a status item "true" or "false" exactly when [appearOnline]
    is given. *)
Theorem connect_url (session : Session) (appearOnline : option bool) (s : Socket) :
  exists url,
    adapter (connect session appearOnline s) = adapter s ++ [adapter_connect url] /\
    scheme url = Some (if ssl s then "wss" else "ws")%string /\
    url_host url = Some (host s) /\
    url_port url = Some (port s) /\
    path url = "/ws"%string /\
    queryItems url =
      Some ([ {| name := "token"; value := Some (token session) |};
              {| name := "format"; value := Some "protobuf"%string |} ] ++
            match appearOnline with
            | Some true => [ {| name := "status"; value := Some "true"%string |} ]
            | Some false => [ {| name := "status"; value := Some "false"%string |} ]
            | None => []
            end).
Proof.
  exists (connect_components s session appearOnline).
  repeat split. by destruct appearOnline as [[|]|].
Qed.

(** ** The definitions at work *)

(** The counter wraps from the largest [Int] to the smallest. *)
Example Int_wrap_max : Int_wrap (2 ^ 63 - 1 + 1) = - 2 ^ 63.
Proof. reflexivity. Qed.

(** The id drawn first is "1"; the promise is stored under it and pending,
    and the encoded envelope went to the adapter. *)
Example createMatch_awaits :
  Example.awaiting_match = (Example.match_pending, Example.match_promise, Ok tt) /\
  collatedPromises Example.match_pending !! "1"%string = Some Example.match_promise /\
  Value Example.match_promise = Nakama_Realtime_Match /\
  pending Example.match_promise Example.match_pending /\
  adapter Example.match_pending = [adapter_send (Example.frame Byte.x10 "1")].
Proof. by vm_compute. Qed.

(** A match reply for "1" gives the caller the match it carries. *)
Example match_reply_resolves :
  exists s',
    onReceivedData Example.codec (Example.frame Byte.x03 "1") Example.match_pending
    = Done s' /\
    result_of Example.match_promise s' = Some (success (decoded [Byte.x31])).
Proof. eexists. split; by vm_compute. Qed.

(** An error reply for "1" fails a request that awaits the empty message. *)
Example error_reply_fails_leaveChat :
  exists s',
    onReceivedData Example.codec (Example.frame Byte.x01 "1") Example.empty_pending
    = Done s' /\
    result_of Example.empty_promise s'
    = Some (failure (NakamaRealtimeError_error {| code := 5; message := "not found" |})).
Proof. eexists. split; by vm_compute. Qed.

(** ** The claims on concrete runs *)


(** The second caller of the crossed schedule, answered first, has the
    value of its own reply too. *)
Example crossed_second_caller :
  exists w a,
    run Example.codec Example.crossed {| socket := Example.socket0; tasks := [] |}
    = Done w /\
    tasks w !! 1%nat = Some a /\
    act_counter a = "2"%string /\
    result_of (act_promise a) (socket w) = Some (success (decoded [Byte.x32])).
Proof. eexists _, _. split; [by vm_compute|]. by repeat split. Qed.

Lemma onReceivedData_drops_and_continues_witness :
  exists s',
    onReceivedData Example.codec (Example.frame Byte.x03 "9") Example.match_pending
    = Done s' /\
    collatedPromises s' = collatedPromises Example.match_pending /\
    futures s' = futures Example.match_pending /\
    adapter s' = adapter Example.match_pending /\
    effects s' = effects Example.match_pending ++
      dropped_effects Example.codec (Example.frame Byte.x03 "9") Example.match_pending /\
    forall frames,
      receive_all Example.codec (Example.frame Byte.x03 "9" :: frames) Example.match_pending
      = receive_all Example.codec frames s'.
Proof.
  apply (onReceivedData_drops_and_continues Example.codec
           (Example.frame Byte.x03 "9") Example.match_pending).
  vm_compute. split; [discriminate | reflexivity].
Defined.

(** A frame that does not decode is logged and reported to [onError]. *)
Example undecodable_frame_reported :
  dropped Example.codec [] Example.match_pending /\
  dropped_effects Example.codec [] Example.match_pending
  = [ logged (Failed_to_deserialise (BinaryDecodingError "truncated"));
      called_with_error onError (BinaryDecodingError "truncated") ].
Proof. by vm_compute. Qed.

(** C1 fails on the code: a socket with one request pending is told of the
    disconnect; [onDisconnect] is called, the dictionary is not empty and
    the request is still pending. *)
Lemma pending_survives_disconnect :
  effects (socketAdapter_onDisconnect Example.match_pending) = [called onDisconnect] /\
  collatedPromises (socketAdapter_onDisconnect Example.match_pending) !! "1"%string
  = Some Example.match_promise /\
  collatedPromises (socketAdapter_onDisconnect Example.match_pending) <> ∅ /\
  pending Example.match_promise (socketAdapter_onDisconnect Example.match_pending) /\
  result_of Example.match_promise (socketAdapter_onDisconnect Example.match_pending) = None.
Proof.
  repeat split; by vm_compute.
Qed.

(** C3 on the code: [createMatch()] awaits reply "1"; the reply is
    error 5 "not found".  Delivery returns the socket as it was: nothing is
    logged and the request is still pending. *)
Theorem error_reply_leaves_createMatch_pending :
  init_serializedData Example.codec (Example.frame Byte.x01 "1")
  = Ok {| cid := "1";
          message_ := Some (OneOf_Message.error {| code := 5; message := "not found" |}) |} /\
  collatedPromises Example.match_pending !! "1"%string = Some Example.match_promise /\
  pending Example.match_promise Example.match_pending /\
  onReceivedData Example.codec (Example.frame Byte.x01 "1") Example.match_pending
  = Done Example.match_pending /\
  result_of Example.match_promise Example.match_pending = None.
Proof. by vm_compute. Qed.

(** C4 fails on the code: [createMatch()] awaits reply "1"; the reply
    carries an rpc; delivery traps on the forced cast. *)
Lemma rpc_reply_to_createMatch_traps :
  init_serializedData Example.codec (Example.frame Byte.x02 "1")
  = Ok {| cid := "1"; message_ := Some (OneOf_Message.rpc [Byte.x31]) |} /\
  collatedPromises Example.match_pending !! "1"%string = Some Example.match_promise /\
  Value Example.match_promise = Nakama_Realtime_Match /\
  onReceivedData Example.codec (Example.frame Byte.x02 "1") Example.match_pending = Trap.
Proof. by vm_compute. Qed.

Lemma mismatched_reply_witness :
  (onReceivedData Example.codec (Example.frame Byte.x05 "1") Example.match_pending
   = logger_error_json Example.codec Unrecognised_collated
       {| cid := "1"; message_ := Some (OneOf_Message.channelMessage [Byte.x31]) |}
       Example.match_pending /\
   (json_loggable Example.codec
      {| cid := "1"; message_ := Some (OneOf_Message.channelMessage [Byte.x31]) |}
      Example.match_pending ->
    exists s',
      onReceivedData Example.codec (Example.frame Byte.x05 "1") Example.match_pending
      = Done s')) /\
  forall s',
    onReceivedData Example.codec (Example.frame Byte.x05 "1") Example.match_pending
    = Done s' ->
    futures s' = futures Example.match_pending /\
    collatedPromises s' = collatedPromises Example.match_pending.
Proof.
  apply (mismatched_reply Example.codec (Example.frame Byte.x05 "1")
           {| cid := "1"; message_ := Some (OneOf_Message.channelMessage [Byte.x31]) |}
           Example.match_promise Example.match_pending).
  - reflexivity.
  - discriminate.
  - reflexivity.
  - reflexivity.
  - discriminate.
  - discriminate.
Defined.

(** C5 fails on the code: after the match reply for "1" has resolved the
    request, "1" is still in the dictionary, and a second reply for "1" is
    not logged as unmatched: it finds the promise and leaves its result. *)
Lemma resolved_entry_still_present :
  exists s' s'',
    onReceivedData Example.codec (Example.frame Byte.x03 "1") Example.match_pending
    = Done s' /\
    result_of Example.match_promise s' = Some (success (decoded [Byte.x31])) /\
    collatedPromises s' !! "1"%string = Some Example.match_promise /\
    onReceivedData Example.codec (Example.frame Byte.x03 "1") s' = Done s'' /\
    effects s'' = [] /\
    collatedPromises s'' !! "1"%string = Some Example.match_promise.
Proof. eexists _, _. repeat split; by vm_compute. Qed.

Lemma entries_are_never_removed_witness :
  collatedPromises
    (fulfil Example.match_promise (success (decoded [Byte.x31])) Example.match_pending)
  = collatedPromises Example.match_pending /\
  collatedPromises (socketAdapter_onDisconnect Example.match_pending)
  = collatedPromises Example.match_pending /\
  collatedPromises (socketAdapter_onError (AdapterError "closed") Example.match_pending)
  = collatedPromises Example.match_pending /\
  forall promise r,
    result_of promise Example.match_pending = Some r ->
    result_of promise
      (fulfil Example.match_promise (success (decoded [Byte.x31])) Example.match_pending)
    = Some r.
Proof.
  apply (entries_are_never_removed Example.codec (Example.frame Byte.x03 "1")
           (AdapterError "closed") Example.match_pending).
  by vm_compute.
Defined.

(** C7 fails on the code: [leaveChat] awaits reply "1" with no value; the
    reply carries a channel, which is not an error; delivery traps. *)
Lemma channel_reply_to_leaveChat_traps :
  init_serializedData Example.codec (Example.frame Byte.x04 "1")
  = Ok {| cid := "1"; message_ := Some (OneOf_Message.channel [Byte.x31]) |} /\
  collatedPromises Example.empty_pending !! "1"%string = Some Example.empty_promise /\
  Value Example.empty_promise = Google_Protobuf_Empty /\
  pending Example.empty_promise Example.empty_pending /\
  onReceivedData Example.codec (Example.frame Byte.x04 "1") Example.empty_pending = Trap.
Proof. by vm_compute. Qed.

Lemma empty_request_acknowledged_witness :
  exists s',
    onReceivedData Example.codec (Example.frame Byte.x00 "1") Example.empty_pending
    = Done s' /\
    result_of Example.empty_promise s' = Some (success Google_Protobuf_Empty_init).
Proof.
  apply (empty_request_acknowledged Example.codec (Example.frame Byte.x00 "1")
           {| cid := "1"; message_ := None |} Example.empty_promise Example.empty_pending).
  - reflexivity.
  - discriminate.
  - reflexivity.
  - reflexivity.
  - reflexivity.
  - reflexivity.
  - reflexivity.
  - right. by exists "{}"%string.
Defined.



(** C9 on the code: [sendPartyData(partyId:opCode:data:)] with a [String]
    hands nothing to the adapter, while the same data sent as match data is
    encoded and handed over. *)
Example sendPartyData_String_vs_sendMatchData :
  sendPartyData_String Example.codec "party" 1 "hello" Example.socket0
  = (Example.socket0, Ok tt) /\
  adapter Example.socket0 = [] /\
  exists s',
    sendMatchData_String Example.codec "match" 1 "hello" None Example.socket0
    = Done (s', Ok tt) /\
    adapter s' = [adapter_send [Byte.x10]].
Proof. repeat split. eexists. split; by vm_compute. Qed.

(** * More of the socket *)

Section Socket_in_use.

Variable pb : Codec.

Lemma with_effects_nil s : with_effects (effects s ++ []) s = s.
Proof. destruct s. unfold with_effects. simpl. by rewrite app_nil_r. Qed.

(** ** Unsolicited messages *)

(** X1. A frame that decodes to an envelope without a correlation id
    changes nothing of the socket but its outgoing effects, and adds at
    most one: a handler call or a log line.  The dictionary, the futures,
    the counter and the calls on the adapter are as before. *)
Theorem push_touches_nothing_else (data : Data) (response : Nakama_Realtime_Envelope)
    (s s' : Socket) :
  init_serializedData pb data = Ok response ->
  cid response = "" ->
  onReceivedData pb data s = Done s' ->
  exists new, s' = with_effects (effects s ++ new) s /\ (length new <= 1)%nat.
Proof.
  intros Hdec Hcid. unfold onReceivedData. rewrite Hdec, decide_True by done.
  assert (Hinv : forall h b, exists new,
            invoke_with h b s = with_effects (effects s ++ new) s /\
            (length new <= 1)%nat).
  { intros h b. unfold invoke_with. destruct (handlers s h).
    - exists [called_with h b]. split; [done | simpl; lia].
    - exists []. split; [by rewrite with_effects_nil | simpl; lia]. }
  assert (Hlog : logger_error_json pb Unrecognised_uncollated response s = Done s' ->
            exists new, s' = with_effects (effects s ++ new) s /\
                        (length new <= 1)%nat).
  { unfold logger_error_json. destruct (logger s).
    - destruct (jsonString pb response) as [json|]; [|done]. intros [= <-].
      exists [logged (Unrecognised_uncollated json)]. split; [done | simpl; lia].
    - intros [= <-]. exists []. split; [by rewrite with_effects_nil | simpl; lia]. }
  unfold onReceivedData_uncollated.
  destruct (message_ response) as [[]|]; try exact Hlog;
    try (intros [= <-]; apply Hinv).
  intros [= <-]. unfold invoke_error. destruct (handlers s onError).
  - eexists [_]. split; [done | simpl; lia].
  - exists []. split; [by rewrite with_effects_nil | simpl; lia].
Qed.

(** X2. While no handler is set, a push of any kind named by the switch is
    dropped without a trace: delivery returns the socket exactly as it was,
    with or without a logger. *)
Theorem unhandled_push_leaves_no_trace (data : Data)
    (response : Nakama_Realtime_Envelope) (s : Socket) :
  init_serializedData pb data = Ok response ->
  cid response = "" ->
  has_push_case (message_ response) = true ->
  (forall h, handlers s h = false) ->
  onReceivedData pb data s = Done s.
Proof.
  intros Hdec Hcid Hcase Hnone. unfold onReceivedData.
  rewrite Hdec, decide_True by done.
  unfold onReceivedData_uncollated, invoke_with, invoke_error.
  destruct (message_ response) as [[]|]; try done; by rewrite Hnone.
Qed.

(** ** Correlation ids *)

Lemma to_int_nonnil z :
  Z.to_int z <> Decimal.Pos Decimal.Nil /\ Z.to_int z <> Decimal.Neg Decimal.Nil.
Proof.
  destruct z as [|p|p]; simpl; split; try done;
    intros [= H]; by apply (DecimalPos.Unsigned.to_uint_nonnil p).
Qed.

Lemma String_of_Int_inj a b : String_of_Int a = String_of_Int b -> a = b.
Proof.
  unfold String_of_Int. intros H.
  apply (f_equal NilZero.int_of_string) in H.
  destruct (to_int_nonnil a), (to_int_nonnil b).
  rewrite !NilZero.isi in H by done.
  injection H as H. apply (f_equal Z.of_int) in H.
  by rewrite !DecimalZ.of_to in H.
Qed.

Lemma String_of_Int_nonempty z : String_of_Int z <> "".
Proof.
  intros H. apply (f_equal NilZero.int_of_string) in H.
  unfold String_of_Int in H. destruct (to_int_nonnil z).
  rewrite NilZero.isi in H by done. done.
Qed.

Lemma Int_wrap_range z : - 2 ^ 63 <= Int_wrap z < 2 ^ 63.
Proof.
  unfold Int_wrap. pose proof (Z.mod_pos_bound (z + 2 ^ 63) (2 ^ 64)). lia.
Qed.

Lemma Int_wrap_small z : - 2 ^ 63 <= z < 2 ^ 63 -> Int_wrap z = z.
Proof. intros H. unfold Int_wrap. rewrite Z.mod_small; lia. Qed.

Lemma Int_wrap_add a b : Int_wrap (Int_wrap a + b) = Int_wrap (a + b).
Proof.
  unfold Int_wrap. f_equal.
  replace ((a + 2 ^ 63) mod 2 ^ 64 - 2 ^ 63 + b + 2 ^ 63)
    with ((a + 2 ^ 63) mod 2 ^ 64 + b) by lia.
  replace (a + b + 2 ^ 63) with ((a + 2 ^ 63) + b) by lia.
  by rewrite Zplus_mod_idemp_l.
Qed.

Lemma Int_wrap_eq a b : Int_wrap a = Int_wrap b -> (a - b) mod 2 ^ 64 = 0.
Proof.
  unfold Int_wrap. intros H.
  assert (Hm : (a + 2 ^ 63) mod 2 ^ 64 = (b + 2 ^ 63) mod 2 ^ 64) by lia.
  replace (a - b) with ((a + 2 ^ 63) - (b + 2 ^ 63)) by lia.
  by rewrite Zminus_mod, Hm, Z.sub_diag.
Qed.

(** ** What each operation leaves alone *)

Lemma fulfil_keeps_rest promise r s :
  collationCounter (fulfil promise r s) = collationCounter s /\
  adapter (fulfil promise r s) = adapter s.
Proof.
  unfold fulfil. by destruct (futures s !! futureResult promise) as [[|]|].
Qed.

Lemma onReceivedData_keeps data s s' :
  onReceivedData pb data s = Done s' ->
  collationCounter s' = collationCounter s /\ adapter s' = adapter s.
Proof.
  unfold onReceivedData, onReceivedData_uncollated, onReceivedData_collated,
    succeed_as, force_cast, logger_error_json, logger_error, invoke_error,
    invoke_with, succeed, fail, emit, bind.
  intros H.
  repeat case_match; simplify_eq; simpl;
    try done; try apply fulfil_keeps_rest;
    match goal with
    | |- context [fulfil ?p ?r ?s0] => by destruct (fulfil_keeps_rest p r s0)
    end.
Qed.

Lemma send_fields T env s :
  let s' := fst (fst (send pb T env s)) in
  let promise := snd (fst (send pb T env s)) in
  collationCounter s' = Int_wrap (collationCounter s + 1) /\
  futures s' = futures s ++ [None] /\
  promise = {| Value := T; futureResult := length (futures s) |} /\
  collatedPromises s' = <[next_id s := promise]> (collatedPromises s).
Proof.
  unfold send, send_enter, wrappingIncrementThenLoad, makePromise, send_transmit,
    next_id. simpl.
  by destruct (serializedData pb _).
Qed.

(** An operation that is neither a call of [send] nor a delivery changes
    neither the counter, nor the dictionary, nor the futures. *)
Lemma perform_other op s s' :
  perform pb op s = Done s' ->
  is_delivery op = false ->
  sent_types [op] = [] ->
  collationCounter s' = collationCounter s /\
  collatedPromises s' = collatedPromises s /\
  futures s' = futures s.
Proof.
  destruct op; simpl; try done; intros H _ _.
  - by injection H as <-.
  - by injection H as <-.
  - unfold sendMatchData in H. destruct (serializedData pb _); [|done].
    by injection H as <-.
  - unfold sendMatchData_String, sendMatchData in H.
    destruct (data_using_utf8 pb data); [|by injection H as <-].
    destruct (serializedData pb _); [|done]. simpl in H. by injection H as <-.
  - unfold sendPartyData_String in H.
    destruct (data_using_utf8 pb data); by injection H as <-.
  - by injection H as <-.
  - injection H as <-. unfold socketAdapter_onConnect, invoke.
    by destruct (handlers s onConnect).
  - injection H as <-. unfold socketAdapter_onDisconnect, invoke.
    by destruct (handlers s onDisconnect).
  - injection H as <-. unfold socketAdapter_onError, invoke_error.
    by destruct (handlers s onError).
Qed.

(** ** When a reply completes a request *)

Lemma onReceivedData_collated_resolves collatedPromise response s s' :
  onReceivedData_collated pb collatedPromise response s = Done s' ->
  futures s' <> futures s ->
  resolves (Value collatedPromise) (message_ response) /\
  pending collatedPromise s /\
  futures s' = <[futureResult collatedPromise := Some (carried (message_ response))]>
                 (futures s).
Proof.
  intros Hdone Hne.
  assert (Hfulfil : forall s0,
    futures s0 = futures s ->
    futures (fulfil collatedPromise (carried (message_ response)) s0) <> futures s ->
    pending collatedPromise s /\
    futures (fulfil collatedPromise (carried (message_ response)) s0)
    = <[futureResult collatedPromise := Some (carried (message_ response))]> (futures s)).
  { intros s0 Hf. unfold fulfil, pending. rewrite Hf.
    by destruct (futures s !! futureResult collatedPromise) as [[|]|]. }
  destruct (typed_case (message_ response)) as [T|] eqn:Hcase.
  - destruct (decide (Value collatedPromise = T)) as [<-|HT].
    + rewrite matching_reply_succeeds in Hdone by done. injection Hdone as <-.
      split; [by left|]. by apply Hfulfil.
    + by rewrite (typed_branch_other _ _ _ T) in Hdone.
  - destruct (is_error (message_ response)) eqn:Herr.
    + destruct (message_ response) as [[]|] eqn:Hm; try done.
      destruct (decide (Value collatedPromise = Google_Protobuf_Empty)) as [HE|HE].
      * rewrite (error_reply_fails_empty _ _ _ e) in Hdone by done.
        injection Hdone as <-. split; [by right|].
        unfold fail. unfold fail in Hne. rewrite <- Hm in *.
        replace (failure (NakamaRealtimeError_error e))
          with (carried (message_ response)) in * by by rewrite Hm.
        by apply Hfulfil.
      * rewrite (error_reply_ignored _ _ _ e) in Hdone by done.
        by injection Hdone as <-.
    + rewrite default_branch in Hdone by done.
      destruct (logger_error_json pb Unrecognised_collated response s)
        as [s1|] eqn:Hlog; [|done].
      apply logger_error_json_frame in Hlog as [_ Hf]. simpl in Hdone.
      destruct (decide (Value collatedPromise = Google_Protobuf_Empty)) as [HE|HE].
      * rewrite <- HE, cast_own in Hdone. injection Hdone as <-.
        split; [by right|]. unfold succeed in *.
        replace (success Google_Protobuf_Empty_init)
          with (carried (message_ response)) in *
          by (by destruct (message_ response) as [[]|]).
        by apply Hfulfil.
      * rewrite cast_other in Hdone by done. injection Hdone as <-. congruence.
Qed.

Lemma delivery_changes_futures (data : Data) (s s' : Socket) :
  onReceivedData pb data s = Done s' ->
  futures s' <> futures s ->
  exists response collatedPromise,
    init_serializedData pb data = Ok response /\
    cid response <> "" /\
    collatedPromises s !! cid response = Some collatedPromise /\
    resolves (Value collatedPromise) (message_ response) /\
    pending collatedPromise s /\
    futures s' = <[futureResult collatedPromise := Some (carried (message_ response))]>
                   (futures s).
Proof.
  intros Hdone Hne. unfold onReceivedData in Hdone.
  destruct (init_serializedData pb data) as [response|error] eqn:Hdec.
  - case_decide as Hcid.
    + by apply onReceivedData_uncollated_Done in Hdone as [_ ?].
    + destruct (collatedPromises s !! cid response) as [collatedPromise|] eqn:Hl.
      * exists response, collatedPromise.
        destruct (onReceivedData_collated_resolves _ _ _ _ Hdone Hne) as (? & ? & ?).
        done.
      * injection Hdone as <-. exfalso. apply Hne.
        by destruct (logger_error_frame (No_matching_promise (cid response)) s)
          as (_ & ? & _).
  - injection Hdone as <-. exfalso. apply Hne.
    destruct (logger_error_frame (Failed_to_deserialise error) s) as (_ & Hf & _).
    destruct (invoke_error_frame onError error
                (logger_error (Failed_to_deserialise error) s)) as (_ & Hf' & _).
    congruence.
Qed.

(** X3. When a delivery changes the futures at all, the frame decoded to a
    reply with a non-empty id, a promise was stored under that id and was
    pending, the reply is of a kind that completes a promise of that type
    (the kind of its typed case, or any kind without a typed case for a
    promise of the empty message), and the only change is that this
    promise's future holds what the reply carries. *)
Theorem completion_needs_matching_kind (data : Data) (s s' : Socket) :
  onReceivedData pb data s = Done s' ->
  futures s' <> futures s ->
  exists response collatedPromise,
    init_serializedData pb data = Ok response /\
    cid response <> "" /\
    collatedPromises s !! cid response = Some collatedPromise /\
    resolves (Value collatedPromise) (message_ response) /\
    pending collatedPromise s /\
    futures s' = <[futureResult collatedPromise := Some (carried (message_ response))]>
                   (futures s).
Proof. apply delivery_changes_futures. Qed.

(** X4. An error reply found under the id of a pending request that awaits
    the empty message fails that request with the error received, wrapped
    as [NakamaRealtimeError]; nothing is logged and no handler is called. *)
Theorem error_reply_fails_empty_request (data : Data)
    (response : Nakama_Realtime_Envelope) (error : Nakama_Realtime_Error)
    (collatedPromise : EventLoopPromise) (s : Socket) :
  init_serializedData pb data = Ok response ->
  cid response <> "" ->
  collatedPromises s !! cid response = Some collatedPromise ->
  message_ response = Some (OneOf_Message.error error) ->
  Value collatedPromise = Google_Protobuf_Empty ->
  pending collatedPromise s ->
  exists s',
    onReceivedData pb data s = Done s' /\
    result_of collatedPromise s' = Some (failure (NakamaRealtimeError_error error)) /\
    effects s' = effects s.
Proof.
  intros Hdec Hcid Hl Hm HT Hp.
  rewrite (onReceivedData_found _ _ _ _ _ Hdec Hcid Hl).
  rewrite (error_reply_fails_empty _ _ _ error) by done.
  eexists. split; [done|]. unfold fail. split.
  - unfold result_of. by rewrite fulfil_pending.
  - unfold fulfil. by destruct (futures s !! futureResult collatedPromise) as [[|]|].
Qed.

(** X5. With a logger attached, the acknowledgement of a request that
    awaits the empty message (a reply under its id with no payload, or with
    a payload without a typed case) is written to the log as an
    unrecognised message before the request is completed successfully. *)
Theorem acknowledgement_is_logged_as_unrecognised (data : Data)
    (response : Nakama_Realtime_Envelope) (collatedPromise : EventLoopPromise)
    (lg : Logger) (json : string) (s : Socket) :
  init_serializedData pb data = Ok response ->
  cid response <> "" ->
  collatedPromises s !! cid response = Some collatedPromise ->
  Value collatedPromise = Google_Protobuf_Empty ->
  is_error (message_ response) = false ->
  typed_case (message_ response) = None ->
  logger s = Some lg ->
  jsonString pb response = Ok json ->
  onReceivedData pb data s
  = Done (succeed collatedPromise Google_Protobuf_Empty_init
            (emit (logged (Unrecognised_collated json)) s)) /\
  effects (succeed collatedPromise Google_Protobuf_Empty_init
             (emit (logged (Unrecognised_collated json)) s))
  = effects s ++ [logged (Unrecognised_collated json)].
Proof.
  intros Hdec Hcid Hl HT Herr Hcase Hlog Hjson.
  rewrite (onReceivedData_found _ _ _ _ _ Hdec Hcid Hl).
  rewrite default_branch by done. unfold logger_error_json.
  rewrite Hlog, Hjson. simpl. rewrite <- HT, cast_own. split; [done|].
  unfold succeed, fulfil. simpl.
  by destruct (futures s !! futureResult collatedPromise) as [[|]|].
Qed.

(** ** A request and its reply *)

(** X6. When [send] gets past the encoding, exactly one frame went to the
    adapter: the encoding of the caller's envelope with the id drawn put in.
    That id is not empty, and the promise awaited is stored under it,
    pending. *)
Theorem send_transmits_its_key (T : MessageType) (env : Nakama_Realtime_Envelope)
    (s s' : Socket) (promise : EventLoopPromise) :
  send pb T env s = (s', promise, Ok tt) ->
  exists binaryData,
    serializedData pb (set_cid (next_id s) env) = Ok binaryData /\
    adapter s' = adapter s ++ [adapter_send binaryData] /\
    next_id s <> "" /\
    collatedPromises s' !! next_id s = Some promise /\
    pending promise s'.
Proof.
  unfold send, send_enter, wrappingIncrementThenLoad, makePromise, send_transmit,
    next_id. simpl.
  destruct (serializedData pb _) as [binaryData|] eqn:Henc; [|done].
  intros [= <- <-]. exists binaryData. simpl. repeat split; try done.
  - apply String_of_Int_nonempty.
  - apply lookup_insert_eq.
  - unfold pending. simpl. by rewrite lookup_app_r, Nat.sub_diag.
Qed.

(** X7. A request followed by its reply: after [send] at type [T], a frame
    that decodes to a reply bearing the id drawn and of the kind whose
    typed case casts to [T] completes the awaited promise with the value
    carried, and changes the result of no promise with another future. *)
Theorem request_then_reply (T : MessageType) (env : Nakama_Realtime_Envelope)
    (s s1 : Socket) (promise : EventLoopPromise) (thrown : Try unit)
    (data : Data) (response : Nakama_Realtime_Envelope) :
  send pb T env s = (s1, promise, thrown) ->
  init_serializedData pb data = Ok response ->
  cid response = next_id s ->
  typed_case (message_ response) = Some T ->
  exists s2,
    onReceivedData pb data s1 = Done s2 /\
    result_of promise s2 = Some (carried (message_ response)) /\
    forall other,
      futureResult other <> futureResult promise ->
      result_of other s2 = result_of other s1.
Proof.
  intros Hsend Hdec Hcid Hcase.
  destruct (send_fields T env s) as (_ & Hf & Hp & Hm).
  rewrite Hsend in Hf, Hp, Hm. simpl in Hf, Hp, Hm.
  destruct (reply_resolves_own_request pb data response promise s1)
    as (s2 & Hdone & Hres & Hother); try done.
  - rewrite Hcid. apply String_of_Int_nonempty.
  - rewrite Hcid, Hm. apply lookup_insert_eq.
  - by rewrite Hp.
  - unfold pending. rewrite Hf, Hp. simpl. by rewrite lookup_app_r, Nat.sub_diag.
  - exists s2. repeat split; try done.
    intros other Hne. unfold result_of. by rewrite Hother.
Qed.

(** ** Sequences of operations *)

Lemma perform_futures op s s' k r :
  perform pb op s = Done s' ->
  futures s !! k = Some (Some r) ->
  futures s' !! k = Some (Some r).
Proof.
  intros Hop Hk.
  destruct (is_delivery op) eqn:Hd.
  - destruct op; try done. simpl in Hop.
    apply onReceivedData_Done in Hop as [_ [->|(? & ? & _ & _ & _ & ->)]]; [done|].
    by apply fulfil_keeps.
  - destruct (sent_types [op]) eqn:Hs.
    + by destruct (perform_other _ _ _ Hop Hd Hs) as (_ & _ & ->).
    + destruct op; try done. simpl in Hop. injection Hop as <-.
      destruct (send_fields T env s) as (_ & -> & _).
      apply lookup_app_l_Some. done.
Qed.

(** X8. Results are final: once the future of a promise holds a result, no
    sequence of operations on the socket changes it, neither later replies
    under the same id, nor requests, nor anything the adapter reports. *)
Theorem results_are_final (ops : list Operation) (s s' : Socket)
    (promise : EventLoopPromise) (r : Result) :
  perform_all pb ops s = Done s' ->
  result_of promise s = Some r ->
  result_of promise s' = Some r.
Proof.
  revert s. induction ops as [|op ops IH]; intros s; simpl.
  - by intros [= <-].
  - destruct (perform pb op s) as [s1|] eqn:Hop; [|done]. simpl.
    intros Hrest Hr. apply (IH s1 Hrest).
    unfold result_of in *.
    destruct (futures s !! futureResult promise) as [[r0|]|] eqn:Hk; try done.
    injection Hr as ->. by rewrite (perform_futures _ _ _ _ _ Hop Hk).
Qed.

(** X9. Only a delivery completes a request: through any operations none
    of which is a delivery (connecting, disconnecting, the adapter reporting
    that the transport opened, closed or failed, further requests, one-way
    sends, handler assignments) a pending promise stays pending. *)
Theorem only_deliveries_complete (ops : list Operation) (s s' : Socket)
    (promise : EventLoopPromise) :
  forallb (fun op => negb (is_delivery op)) ops = true ->
  perform_all pb ops s = Done s' ->
  pending promise s ->
  pending promise s'.
Proof.
  revert s. induction ops as [|op ops IH]; intros s; simpl.
  - by intros _ [= <-].
  - intros [Hd Hrest]%andb_prop.
    destruct (perform pb op s) as [s1|] eqn:Hop; [|done]. simpl.
    intros Hall Hp. apply (IH s1 Hrest Hall).
    apply negb_true_iff in Hd. unfold pending in *.
    destruct (sent_types [op]) eqn:Hs.
    + by destruct (perform_other _ _ _ Hop Hd Hs) as (_ & _ & ->).
    + destruct op; try done. simpl in Hop. injection Hop as <-.
      destruct (send_fields T env s) as (_ & -> & _).
      by apply lookup_app_l_Some.
Qed.

Lemma perform_counter op s s' :
  perform pb op s = Done s' ->
  collationCounter s'
  = match sent_types [op] with
    | [] => collationCounter s
    | _ => Int_wrap (collationCounter s + 1)
    end.
Proof.
  intros Hop. destruct (is_delivery op) eqn:Hd.
  - destruct op; try done. simpl in *. by apply onReceivedData_keeps in Hop as [-> _].
  - destruct (sent_types [op]) eqn:Hs.
    + by destruct (perform_other _ _ _ Hop Hd Hs) as (-> & _).
    + destruct op; try done. simpl in Hop. injection Hop as <-.
      by destruct (send_fields T env s) as (-> & _).
Qed.

Lemma sent_types_cons op ops :
  sent_types (op :: ops) = sent_types [op] ++ sent_types ops.
Proof. by destruct op. Qed.

Lemma sent_types_single op : (length (sent_types [op]) <= 1)%nat.
Proof. destruct op; simpl; lia. Qed.

Lemma perform_all_counter ops s s' :
  counter_in_range s ->
  perform_all pb ops s = Done s' ->
  collationCounter s'
  = Int_wrap (collationCounter s + Z.of_nat (length (sent_types ops))).
Proof.
  revert s. induction ops as [|op ops IH]; intros s Hr.
  - simpl. intros [= <-]. rewrite Z.add_0_r. symmetry. by apply Int_wrap_small.
  - cbn [perform_all].
    destruct (perform pb op s) as [s1|] eqn:Hop; [|done]. cbn [bind]. intros Hrest.
    pose proof (perform_counter _ _ _ Hop) as Hc.
    rewrite sent_types_cons, length_app.
    destruct (sent_types [op]) as [|T l] eqn:Hs.
    + rewrite (IH s1); [by rewrite Hc | unfold counter_in_range; by rewrite Hc | done].
    + pose proof (sent_types_single op) as Hl. rewrite Hs in Hl. simpl in Hl.
      destruct l; [|simpl in Hl; lia].
      rewrite (IH s1); [| unfold counter_in_range; rewrite Hc; apply Int_wrap_range | done].
      rewrite Hc, Int_wrap_add. f_equal. simpl length. lia.
Qed.

(** X10. Ids do not repeat before the counter has gone round: after any
    operations among which [send] was called at least once and fewer than
    2^64 times, the next id to be drawn differs from the one that was next
    before them. *)
Theorem ids_differ_within_a_round (ops : list Operation) (s s' : Socket) :
  counter_in_range s ->
  perform_all pb ops s = Done s' ->
  0 < Z.of_nat (length (sent_types ops)) < 2 ^ 64 ->
  next_id s' <> next_id s.
Proof.
  intros Hr Hall Hn Heq. unfold next_id in Heq.
  apply String_of_Int_inj in Heq.
  rewrite (perform_all_counter _ _ _ Hr Hall), Int_wrap_add in Heq.
  apply Int_wrap_eq in Heq.
  replace (collationCounter s + Z.of_nat (length (sent_types ops)) + 1 -
           (collationCounter s + 1))
    with (Z.of_nat (length (sent_types ops))) in Heq by lia.
  rewrite Z.mod_small in Heq by lia. lia.
Qed.

Lemma perform_length op s s' :
  perform pb op s = Done s' ->
  length (futures s') = (length (futures s) + length (sent_types [op]))%nat.
Proof.
  intros Hop. destruct (is_delivery op) eqn:Hd.
  - destruct op; try done. simpl in *.
    apply onReceivedData_Done in Hop as [_ [->|(? & ? & _ & _ & _ & ->)]]; [lia|].
    rewrite fulfil_length. lia.
  - destruct (sent_types [op]) eqn:Hs.
    + destruct (perform_other _ _ _ Hop Hd Hs) as (_ & _ & ->). simpl. lia.
    + destruct op; try done. simpl in Hop. injection Hop as <-.
      destruct (send_fields T env s) as (_ & -> & _).
      simpl in Hs. injection Hs as <- <-. by rewrite length_app.
Qed.

Lemma perform_dictionary op s s' :
  perform pb op s = Done s' ->
  collatedPromises s'
  = match sent_types [op] with
    | T :: _ => <[next_id s := {| Value := T; futureResult := length (futures s) |}]>
                  (collatedPromises s)
    | [] => collatedPromises s
    end.
Proof.
  intros Hop. destruct (is_delivery op) eqn:Hd.
  - destruct op; try done. simpl in *. by apply onReceivedData_Done in Hop as [-> _].
  - destruct (sent_types [op]) eqn:Hs.
    + by destruct (perform_other _ _ _ Hop Hd Hs) as (_ & -> & _).
    + destruct op; try done. simpl in Hop. injection Hop as <-.
      destruct (send_fields T env s) as (_ & _ & Hp & ->).
      simpl in Hs. injection Hs as <- <-. by rewrite Hp.
Qed.

Lemma perform_all_dictionary ops s s' :
  counter_in_range s ->
  collationCounter s + Z.of_nat (length (sent_types ops)) < 2 ^ 63 ->
  (forall j, 1 <= j ->
     collatedPromises s !! String_of_Int (collationCounter s + j) = None) ->
  perform_all pb ops s = Done s' ->
  size (collatedPromises s')
  = (size (collatedPromises s) + length (sent_types ops))%nat /\
  (forall key,
     (forall i, (i < length (sent_types ops))%nat ->
        key <> String_of_Int (collationCounter s + Z.of_nat i + 1)) ->
     collatedPromises s' !! key = collatedPromises s !! key) /\
  (forall i T,
     sent_types ops !! i = Some T ->
     collatedPromises s' !! String_of_Int (collationCounter s + Z.of_nat i + 1)
     = Some {| Value := T; futureResult := length (futures s) + i |}).
Proof.
  revert s. induction ops as [|op ops IH]; intros s Hr Hn Hfresh.
  - simpl. intros [= <-]. split; [lia|]. split; [done|]. by intros i T.
  - cbn [perform_all].
    destruct (perform pb op s) as [s1|] eqn:Hop; [|done]. cbn [bind]. intros Hrest.
    rewrite sent_types_cons, length_app in Hn.
    rewrite sent_types_cons, length_app.
    pose proof (perform_counter _ _ _ Hop) as Hc.
    pose proof (perform_length _ _ _ Hop) as Hlen.
    pose proof (perform_dictionary _ _ _ Hop) as Hm.
    destruct (sent_types [op]) as [|T l] eqn:Hs.
    + simpl in *. rewrite Nat.add_0_r in Hlen.
      destruct (IH s1) as (Hsize & Hkeep & Hget); try done.
      * unfold counter_in_range. by rewrite Hc.
      * by rewrite Hc.
      * intros j Hj. rewrite Hc, Hm. by apply Hfresh.
      * rewrite Hc, Hm, Hlen in *. done.
    + pose proof (sent_types_single op) as Hl. rewrite Hs in Hl. simpl in Hl.
      destruct l; [|simpl in Hl; lia]. clear Hl.
      simpl length in *. unfold counter_in_range in Hr.
      rewrite Int_wrap_small in Hc by lia.
      destruct (IH s1) as (Hsize & Hkeep & Hget); try done.
      * unfold counter_in_range. rewrite Hc. lia.
      * rewrite Hc. lia.
      * intros j Hj. rewrite Hc, Hm. rewrite lookup_insert_ne.
        -- replace (collationCounter s + 1 + j) with (collationCounter s + (1 + j)) by lia.
           apply Hfresh. lia.
        -- unfold next_id. rewrite Int_wrap_small by lia.
           intros Heq%String_of_Int_inj. lia.
      * assert (Hid : next_id s = String_of_Int (collationCounter s + 1)).
        { unfold next_id. by rewrite Int_wrap_small by lia. }
        rewrite Hm, Hc, Hlen, Hid in *. simpl length in *.
        assert (Hnone : collatedPromises s !! String_of_Int (collationCounter s + 1) = None)
          by (apply Hfresh; lia).
        repeat split.
        -- rewrite Hsize, map_size_insert_None by done. lia.
        -- intros key Hkey. rewrite Hkeep.
           ++ rewrite lookup_insert_ne; [done|].
              intros <-. apply (Hkey 0%nat); [lia|]. f_equal. lia.
           ++ intros i Hi. specialize (Hkey (S i)).
              replace (collationCounter s + 1 + Z.of_nat i + 1)
                with (collationCounter s + Z.of_nat (S i) + 1) by lia.
              apply Hkey. lia.
        -- intros [|i] T0 HT0; simpl in HT0.
           ++ injection HT0 as <-. rewrite Hkeep.
              ** rewrite Z.add_0_r, lookup_insert_eq. do 2 f_equal. lia.
              ** intros i Hi Heq%String_of_Int_inj. lia.
           ++ specialize (Hget i T0 HT0).
              replace (collationCounter s + Z.of_nat (S i) + 1)
                with (collationCounter s + 1 + Z.of_nat i + 1) by lia.
              rewrite Hget. do 2 f_equal. lia.
Qed.

(** X11. Nothing is ever removed from the dictionary.  Start with an empty
    dictionary and perform any operations, deliveries and disconnects
    included, among which [send] is called [n] times without the counter
    wrapping: at the end the dictionary has exactly [n] entries, and the
    promise of the [i]-th request is stored under the [i]-th id drawn. *)
Theorem dictionary_holds_every_request (ops : list Operation) (s s' : Socket) :
  collatedPromises s = ∅ ->
  counter_in_range s ->
  collationCounter s + Z.of_nat (length (sent_types ops)) < 2 ^ 63 ->
  perform_all pb ops s = Done s' ->
  size (collatedPromises s') = length (sent_types ops) /\
  forall i T,
    sent_types ops !! i = Some T ->
    collatedPromises s' !! String_of_Int (collationCounter s + Z.of_nat i + 1)
    = Some {| Value := T; futureResult := length (futures s) + i |}.
Proof.
  intros Hempty Hr Hn Hall.
  destruct (perform_all_dictionary ops s s') as (Hsize & _ & Hget); try done.
  - intros j _. by rewrite Hempty.
  - split; [|done]. by rewrite Hsize, Hempty, map_size_empty.
Qed.

(** ** The request that is never answered *)

Lemma resolves_PartyJoinRequest m : ~ resolves Nakama_Realtime_PartyJoinRequest m.
Proof. unfold resolves, typed_case. destruct m as [[]|]; by intros [|[]]. Qed.

Lemma awaits_join_requests_step op s s' promise :
  perform pb op s = Done s' ->
  awaits_join_requests promise s ->
  awaits_join_requests promise s'.
Proof.
  intros Hop [Hp Hty]. unfold awaits_join_requests, pending in *.
  pose proof (perform_dictionary _ _ _ Hop) as Hm.
  destruct (is_delivery op) eqn:Hd.
  - destruct op; try done. simpl in Hop, Hm. rewrite Hm. split; [|done].
    pose proof Hop as [_ [->|(response & q & Hdec & Hcid & Hl & Hf)]]%onReceivedData_Done;
      [done|].
    destruct (decide (futureResult q = futureResult promise)) as [Heq|Hne].
    + exfalso. apply (resolves_PartyJoinRequest (message_ response)).
      destruct (delivery_changes_futures _ _ _ Hop)
        as (response' & q' & Hdec' & _ & Hl' & Hres & _).
      * intros Hsame. rewrite Hf in Hsame.
        assert (futures (fulfil q (carried (message_ response)) s)
                  !! futureResult q = Some (Some (carried (message_ response))))
          by (apply fulfil_pending; by rewrite Heq).
        rewrite Hsame, Heq, Hp in H. done.
      * rewrite Hdec in Hdec'. injection Hdec' as <-.
        rewrite Hl in Hl'. injection Hl' as <-.
        by rewrite <- (Hty _ _ Hl Heq).
    + rewrite Hf, fulfil_other by done. done.
  - destruct (sent_types [op]) as [|T l] eqn:Hs.
    + destruct (perform_other _ _ _ Hop Hd Hs) as (_ & -> & ->). done.
    + destruct op; try done. simpl in Hop. injection Hop as <-.
      destruct (send_fields T0 env s) as (_ & Hf & _).
      rewrite Hf, Hm. split; [by apply lookup_app_l_Some|].
      intros c q Hq Heq. apply lookup_insert_Some in Hq as [[_ <-]|[_ Hq]].
      * simpl in Heq. apply lookup_lt_Some in Hp. lia.
      * eauto.
Qed.

(** X12. [listPartyJoinRequests] is never answered.  The promise it awaits
    is a promise of [Nakama_Realtime_PartyJoinRequest], and the collated
    switch has neither a typed case for that type nor completes it in its
    default case: whatever is delivered and whatever else is done with the
    socket afterwards, the promise is still pending. *)
Theorem listPartyJoinRequests_is_never_answered (req : Body) (ops : list Operation)
    (s s1 s' : Socket) (promise : EventLoopPromise) (thrown : Try unit) :
  all_allocated s ->
  listPartyJoinRequests pb req s = (s1, promise, thrown) ->
  perform_all pb ops s1 = Done s' ->
  pending promise s'.
Proof.
  intros Halloc Hcall Hall.
  assert (Hstart : awaits_join_requests promise s1).
  { unfold listPartyJoinRequests, request in Hcall.
    destruct (send_fields Nakama_Realtime_PartyJoinRequest
                {| cid := ""; message_ := Some (OneOf_Message.partyJoinRequestList req) |} s)
      as (_ & Hf & Hp & Hm).
    rewrite Hcall in Hf, Hp, Hm. simpl in Hf, Hp, Hm.
    unfold awaits_join_requests, pending. rewrite Hf, Hm, Hp. simpl. split.
    - by rewrite lookup_app_r, Nat.sub_diag.
    - intros c q Hq Heq. apply lookup_insert_Some in Hq as [[_ <-]|[_ Hq]]; [done|].
      apply Halloc in Hq. lia. }
  clear Hcall. revert s1 Hstart Hall.
  induction ops as [|op ops IH]; intros s1 Hstart; simpl.
  - intros [= <-]. apply Hstart.
  - destruct (perform pb op s1) as [s2|] eqn:Hop; [|done]. simpl.
    apply IH. by eapply awaits_join_requests_step.
Qed.

(** ** Callers do not see each other's replies *)

(** X13. In any schedule of concurrent callers, delivering a reply leaves
    alone the result of every activation whose id is not the id the reply
    bears. *)
Theorem reply_reaches_only_its_id (s0 : Socket) (events : list Event) (w w' : World)
    (i : nat) (a : Activation) (data : Data) (response : Nakama_Realtime_Envelope) :
  collatedPromises s0 = ∅ ->
  run pb events {| socket := s0; tasks := [] |} = Done w ->
  tasks w !! i = Some a ->
  init_serializedData pb data = Ok response ->
  cid response <> act_counter a ->
  step pb w (ev_receive data) = Done w' ->
  result_of (act_promise a) (socket w') = result_of (act_promise a) (socket w).
Proof.
  intros H0 Hrun Ha Hdec Hcid Hstep.
  pose proof (run_consistent pb events [] _ _ (consistent_initially pb s0 H0) Hrun)
    as [H1 H2 H3 H4].
  simpl in Hstep.
  destruct (onReceivedData pb data (socket w)) as [s'|] eqn:Hrecv; [|done].
  simpl in Hstep. injection Hstep as <-. simpl.
  apply onReceivedData_Done in Hrecv
    as [_ [Hf|(response' & q & Hdec' & _ & Hl & Hf)]];
    unfold result_of; rewrite Hf; [done|].
  rewrite Hdec in Hdec'. injection Hdec' as <-.
  destruct (decide (futureResult (act_promise a) = futureResult q)) as [Heq|Hne].
  - destruct (H1 _ _ Hl) as (j & b & Hb & Hq & Hc).
    assert (i = j) as -> by (eapply H3; eauto; congruence).
    congruence.
  - by rewrite fulfil_other.
Qed.

End Socket_in_use.

(** * The code generator's helpers *)

#[local] Arguments Ascii.eqb : simpl never.

Lemma count_app c a b :
  Codegen.count c (a +:+ b) = (Codegen.count c a + Codegen.count c b)%nat.
Proof. induction a as [|c' a IH]; simpl; [done|]. rewrite IH. lia. Qed.

Lemma Replace_all_LF input :
  Codegen.Replace_from 0 None input (String Codegen.LF EmptyString) " "
  = match input with
    | EmptyString => EmptyString
    | String c rest =>
        String (if Ascii.eqb Codegen.LF c then Codegen.SP else c)
          (Codegen.Replace_from 0 None rest (String Codegen.LF EmptyString) " ")
    end.
Proof.
  destruct input as [|c rest]; [done|]. simpl. rewrite andb_true_r.
  by destruct (Ascii.eqb Codegen.LF c).
Qed.

(** X14. [stripNewlines] keeps the length of its input and changes it byte
    by byte: a line feed becomes a space, every other byte stays; so the
    result has no line feed. *)
Theorem stripNewlines_bytewise (input : string) :
  String.length (Codegen.stripNewlines input) = String.length input /\
  (forall i c,
     String.get i input = Some c ->
     String.get i (Codegen.stripNewlines input)
     = Some (if Ascii.eqb Codegen.LF c then Codegen.SP else c)) /\
  Codegen.count Codegen.LF (Codegen.stripNewlines input) = 0%nat.
Proof.
  unfold Codegen.stripNewlines, Codegen.Replace. simpl.
  induction input as [|c rest (IHlen & IHget & IHcount)];
    rewrite Replace_all_LF; [done|].
  repeat split.
  - simpl. by rewrite IHlen.
  - intros [|i] c0; simpl.
    + by intros [= ->].
    + apply IHget.
  - simpl. rewrite IHcount. destruct (Ascii.eqb_spec Codegen.LF c) as [<-|Hne]; [done|].
    destruct (Ascii.eqb_spec c Codegen.LF) as [->|]; done.
Qed.

Lemma Split_nonempty s sep : Codegen.Split s sep <> [].
Proof.
  destruct s as [|c s]; simpl; [done|].
  destruct (Ascii.eqb c sep); [done|]. by destruct (Codegen.Split s sep).
Qed.

(** X15. [splitEnumDescription] cuts a description at its line feeds:
    joining the pieces with line feeds gives the description back, there is
    one piece more than there are line feeds (one empty piece for the empty
    description), and no piece contains a line feed. *)
Theorem splitEnumDescription_lines (description : string) :
  Codegen.Join (Codegen.splitEnumDescription description) Codegen.LF = description /\
  length (Codegen.splitEnumDescription description)
  = S (Codegen.count Codegen.LF description) /\
  Forall (fun piece => Codegen.count Codegen.LF piece = 0%nat)
    (Codegen.splitEnumDescription description).
Proof.
  unfold Codegen.splitEnumDescription.
  induction description as [|c rest (IHjoin & IHlen & IHall)]; simpl.
  - repeat split. by constructor.
  - pose proof (Split_nonempty rest Codegen.LF) as Hne.
    destruct (Ascii.eqb_spec c Codegen.LF) as [->|Hc].
    + repeat split.
      * destruct (Codegen.Split rest Codegen.LF) as [|piece pieces] eqn:Hs; [done|].
        simpl. by rewrite <- IHjoin.
      * simpl. by rewrite IHlen.
      * by constructor.
    + destruct (Codegen.Split rest Codegen.LF) as [|piece pieces] eqn:Hs; [done|].
      repeat split.
      * rewrite <- IHjoin. simpl. by destruct pieces.
      * simpl in *. lia.
      * inversion IHall as [|? ? Hpiece Hrest]; subst. constructor; [|done].
        simpl. rewrite Hpiece. by destruct (Ascii.eqb_spec c Codegen.LF).
Qed.

Lemma Replace_from_exhausted s old new :
  Codegen.Replace_from 0 (Some 0%nat) s old new = s.
Proof. induction s as [|c s IH]; simpl; [done|]. by rewrite IH. Qed.

Lemma Replace_from_skip x left s old new :
  Codegen.Replace_from (String.length x) left (x +:+ s) old new
  = Codegen.Replace_from 0 left s old new.
Proof. induction x as [|c x IH]; simpl; [done|]. apply IH. Qed.

Lemma HasPrefix_Nakama_other c s :
  c <> Codegen.letter_N -> Codegen.HasPrefix (String c s) "Nakama_" = false.
Proof.
  intros Hc. change "Nakama_"%string with (String Codegen.letter_N "akama_").
  cbn [Codegen.HasPrefix].
  destruct (Ascii.eqb_spec Codegen.letter_N c); [congruence | done].
Qed.

Lemma Replace_once_without_N a t :
  Codegen.count Codegen.letter_N a = 0%nat ->
  Codegen.Replace_from 0 (Some 1%nat) (a +:+ t) "Nakama_" ""
  = a +:+ Codegen.Replace_from 0 (Some 1%nat) t "Nakama_" "".
Proof.
  induction a as [|c a IH]; [done|].
  cbn [Codegen.count String.append Codegen.Replace_from].
  destruct (Ascii.eqb_spec c Codegen.letter_N) as [->|Hc]; [done|].
  intros Hcount.
  change (String c a +:+ t) with (String c (a +:+ t)).
  change (String c a +:+ Codegen.Replace_from 0 (Some 1%nat) t "Nakama_" "")
    with (String c (a +:+ Codegen.Replace_from 0 (Some 1%nat) t "Nakama_" "")).
  cbn [Codegen.Replace_from].
  rewrite HasPrefix_Nakama_other by done. by rewrite IH.
Qed.

Lemma Replace_without_N a :
  Codegen.count Codegen.letter_N a = 0%nat ->
  Codegen.Replace_from 0 (Some 1%nat) a "Nakama_" "" = a.
Proof.
  induction a as [|c a IH]; [done|].
  cbn [Codegen.count Codegen.Replace_from].
  destruct (Ascii.eqb_spec c Codegen.letter_N) as [->|Hc]; [done|].
  intros Hcount. rewrite HasPrefix_Nakama_other by done. by rewrite IH.
Qed.

(** X16. [stripOperationPrefix] removes the first "Nakama_" wherever it
    stands, not only at the start, and removes no second one: for [a]
    without the letter N, [a ++ "Nakama_" ++ b] becomes [a ++ b], whatever
    [b] contains, and [a] itself is returned unchanged. *)
Theorem stripOperationPrefix_first_occurrence (a b : string) :
  Codegen.count Codegen.letter_N a = 0%nat ->
  Codegen.stripOperationPrefix (a +:+ "Nakama_" +:+ b) = a +:+ b /\
  Codegen.stripOperationPrefix a = a.
Proof.
  intros Ha. unfold Codegen.stripOperationPrefix, Codegen.Replace. simpl.
  split.
  - rewrite Replace_once_without_N by done. f_equal.
    change (Codegen.Replace_from 0 (Some 1%nat) ("Nakama_" +:+ b) "Nakama_" "")
      with (Codegen.Replace_from (String.length "akama_") (Some 0%nat)
              ("akama_" +:+ b) "Nakama_" "").
    by rewrite Replace_from_skip, Replace_from_exhausted.
  - by apply Replace_without_N.
Qed.

Lemma stripOperationPrefix_first_occurrence_witness :
  Codegen.stripOperationPrefix "ApiNakama_Nakama_Event" = "ApiNakama_Event"%string /\
  Codegen.stripOperationPrefix "Api" = "Api"%string.
Proof.
  apply (stripOperationPrefix_first_occurrence "Api" "Nakama_Event"). reflexivity.
Defined.

(** ** The pass that names the bodies of "put" operations *)

Lemma with_Ref_settled ref param :
  ref <> "" -> Codegen.body_without_ref (Codegen.with_Ref ref param) = false.
Proof.
  intros Href. unfold Codegen.body_without_ref, Codegen.with_Ref. simpl.
  rewrite (bool_decide_eq_false_2 (ref = "")) by done. by rewrite andb_false_r.
Qed.

Lemma definitions_ref_nonempty name : "#/definitions/" +:+ name <> "".
Proof. done. Qed.

Lemma referenced_settled name param :
  Codegen.body_without_ref (Codegen.referenced name param) = false.
Proof.
  unfold Codegen.referenced.
  destruct (Codegen.body_without_ref param) eqn:Hb; [|done].
  apply with_Ref_settled, definitions_ref_nonempty.
Qed.

Lemma referenced_idem name param :
  Codegen.referenced name (Codegen.referenced name param) = Codegen.referenced name param.
Proof.
  unfold Codegen.referenced at 1. by rewrite referenced_settled.
Qed.

Lemma referenced_id name params :
  Forall (fun param => Codegen.body_without_ref param = false) params ->
  Codegen.referenced name <$> params = params.
Proof.
  induction 1 as [|param params Hp _ IH]; [done|].
  rewrite fmap_cons, IH. unfold Codegen.referenced. by rewrite Hp.
Qed.

Lemma with_Parameters_id verb :
  Codegen.with_Parameters (Codegen.po_Parameters verb) verb = verb.
Proof. by destruct verb. Qed.

(** The loop over the parameters, when it ends: the parameters are the
    referenced ones; with no parameter to reference the definitions are
    untouched; otherwise there were definitions, the object name is now
    defined and the other names are as before. *)
Lemma visit_parameters_Done name params definitions r :
  Codegen.visit_parameters name params definitions = Done r ->
  fst r = Codegen.referenced name <$> params /\
  (Forall (fun param => Codegen.body_without_ref param = false) params ->
   snd r = definitions) /\
  (definitions = None -> snd r = None) /\
  (forall defs, definitions = Some defs ->
     exists defs', snd r = Some defs' /\
       (forall k, k <> name -> defs' !! k = defs !! k) /\
       (forall k, is_Some (defs !! k) -> is_Some (defs' !! k)) /\
       (Exists (fun param => Codegen.body_without_ref param = true) params ->
        is_Some (defs' !! name))).
Proof.
  revert definitions r. induction params as [|param params IH]; intros definitions r; simpl.
  - intros [= <-]. simpl. repeat split; try done.
    intros defs ->. exists defs. repeat split; try done. by intros H%Exists_nil.
  - destruct (Codegen.body_without_ref param) eqn:Hb.
    + destruct definitions as [defs|]; [|done].
      destruct (Codegen.visit_parameters name params
                  (Some (<[name := Codegen.body_definition param]> defs)))
        as [r1|] eqn:Hrest; [|done].
      simpl. intros [= <-]. simpl.
      destruct (IH _ _ Hrest) as (Hfst & _ & _ & Hsome).
      destruct (Hsome _ eq_refl) as (defs' & Hsnd & Hother & Hmono & _).
      repeat split.
      * unfold Codegen.referenced at 1. by rewrite Hb, Hfst.
      * intros Hall. inversion Hall; congruence.
      * done.
      * intros ? [= <-]. exists defs'. repeat split; try done.
        -- intros k Hk. by rewrite Hother, lookup_insert_ne.
        -- intros k Hk. apply Hmono.
           destruct (decide (name = k)) as [->|]; [by rewrite lookup_insert_eq|].
           by rewrite lookup_insert_ne.
        -- intros _. apply Hmono. by rewrite lookup_insert_eq.
    + destruct (Codegen.visit_parameters name params definitions) as [r1|] eqn:Hrest;
        [|done].
      simpl. intros [= <-]. simpl.
      destruct (IH _ _ Hrest) as (Hfst & Hsame & Hnone & Hsome).
      repeat split.
      * unfold Codegen.referenced at 1. by rewrite Hb, Hfst.
      * intros Hall. inversion Hall; auto.
      * done.
      * intros defs Hdefs. destruct (Hsome _ Hdefs) as (defs' & ? & ? & ? & Hex).
        exists defs'. repeat split; try done.
        intros [?|?]%Exists_cons; [congruence | auto].
Qed.

Lemma visit_parameters_Trap name params :
  Exists (fun param => Codegen.body_without_ref param = true) params ->
  Codegen.visit_parameters name params None = Trap.
Proof.
  induction params as [|param params IH]; [by intros H%Exists_nil|].
  simpl. destruct (Codegen.body_without_ref param) eqn:Hb; [done|].
  intros [?|?]%Exists_cons; [congruence|]. by rewrite IH.
Qed.

Lemma referenced_path_idem ns def :
  Codegen.referenced_path ns (Codegen.referenced_path ns def)
  = Codegen.referenced_path ns def.
Proof.
  unfold Codegen.referenced_path.
  destruct (def !! "put"%string) as [verb|] eqn:Hput; [|by rewrite Hput].
  rewrite lookup_insert_eq, insert_insert_eq. f_equal.
  unfold Codegen.with_Parameters, Codegen.objectName. simpl. f_equal.
  rewrite <- list_fmap_compose. apply list_fmap_ext. intros _ param _.
  apply referenced_idem.
Qed.

(** One path visited. *)
Lemma visit_path_Done path s s' :
  Codegen.visit_path path s = Done s' ->
  Codegen.Namespace s' = Codegen.Namespace s /\
  Codegen.Paths s'
  = match Codegen.Paths s !! path with
    | Some def => <[path := Codegen.referenced_path (Codegen.Namespace s) def]>
                    (Codegen.Paths s)
    | None => Codegen.Paths s
    end /\
  (Codegen.Definitions s = None -> Codegen.Definitions s' = None) /\
  (forall defs, Codegen.Definitions s = Some defs ->
     exists defs', Codegen.Definitions s' = Some defs' /\
       (forall k, is_Some (defs !! k) -> is_Some (defs' !! k))).
Proof.
  unfold Codegen.visit_path.
  destruct (Codegen.Paths s !! path) as [def|] eqn:Hpath.
  - unfold Codegen.referenced_path.
    destruct (def !! "put"%string) as [verb|] eqn:Hput.
    + destruct (Codegen.visit_parameters _ _ _) as [r|] eqn:Hvisit; [|done].
      simpl. intros [= <-]. simpl.
      destruct (visit_parameters_Done _ _ _ _ Hvisit) as (-> & _ & Hnone & Hsome).
      repeat split; try done.
      intros defs Hdefs. destruct (Hsome _ Hdefs) as (defs' & ? & _ & ? & _).
      by exists defs'.
    + intros [= <-]. rewrite insert_id by done. repeat split; try done.
      intros defs ->. by exists defs.
  - intros [= <-]. repeat split; try done. intros defs ->. by exists defs.
Qed.

Lemma generate_Done order s s' :
  Codegen.generateBodyDefinitionFromSchema order s = Done s' ->
  Codegen.Namespace s' = Codegen.Namespace s /\
  (forall path,
     Codegen.Paths s' !! path
     = if bool_decide (path ∈ order)
       then Codegen.referenced_path (Codegen.Namespace s) <$> Codegen.Paths s !! path
       else Codegen.Paths s !! path) /\
  (Codegen.Definitions s = None -> Codegen.Definitions s' = None) /\
  (forall defs, Codegen.Definitions s = Some defs ->
     exists defs', Codegen.Definitions s' = Some defs' /\
       (forall k, is_Some (defs !! k) -> is_Some (defs' !! k))).
Proof.
  revert s. induction order as [|p order IH]; intros s; simpl.
  - intros [= <-]. repeat split; try done. intros defs ->. by exists defs.
  - destruct (Codegen.visit_path p s) as [s1|] eqn:Hvisit; [|done]. simpl.
    intros Hrest.
    destruct (visit_path_Done _ _ _ Hvisit) as (Hns1 & Hpaths1 & Hnone1 & Hsome1).
    destruct (IH _ Hrest) as (Hns & Hpaths & Hnone & Hsome).
    repeat split.
    + congruence.
    + intros path. rewrite Hpaths, Hns1, Hpaths1.
      destruct (decide (path = p)) as [->|Hne].
      * rewrite (bool_decide_eq_true_2 (p ∈ p :: order)) by apply list_elem_of_here.
        destruct (Codegen.Paths s !! p) as [def|] eqn:Hp.
        -- rewrite lookup_insert_eq. simpl.
           case_bool_decide; simpl; [by rewrite referenced_path_idem | done].
        -- rewrite Hp. by case_bool_decide.
      * assert (Hlook : match Codegen.Paths s !! p with
                        | Some def => <[p := Codegen.referenced_path (Codegen.Namespace s) def]>
                                        (Codegen.Paths s)
                        | None => Codegen.Paths s
                        end !! path = Codegen.Paths s !! path).
        { destruct (Codegen.Paths s !! p); [by rewrite lookup_insert_ne | done]. }
        rewrite Hlook.
        destruct (decide (path ∈ order)) as [Hin|Hnin].
        -- rewrite !bool_decide_eq_true_2
             by first [done | by apply list_elem_of_further]. done.
        -- rewrite !bool_decide_eq_false_2
             by first [done | by intros [?|?]%elem_of_cons]. done.
    + auto.
    + intros defs Hdefs. destruct (Hsome1 _ Hdefs) as (defs1 & Hdefs1 & Hmono1).
      destruct (Hsome _ Hdefs1) as (defs' & ? & Hmono). exists defs'. split; auto.
Qed.

Lemma visit_parameters_settled name params definitions :
  Forall (fun param => Codegen.body_without_ref param = false) params ->
  Codegen.visit_parameters name params definitions = Done (params, definitions).
Proof.
  induction 1 as [|param params Hp _ IH]; simpl; [done|]. by rewrite Hp, IH.
Qed.

Lemma visit_path_settled path s :
  Codegen.settled s -> Codegen.visit_path path s = Done s.
Proof.
  intros Hs. unfold Codegen.visit_path.
  destruct (Codegen.Paths s !! path) as [def|] eqn:Hpath; [|done].
  destruct (def !! "put"%string) as [verb|] eqn:Hput; [|done].
  rewrite visit_parameters_settled.
  - simpl. rewrite with_Parameters_id, (insert_id def), (insert_id (Codegen.Paths s)) by done.
    by destruct s.
  - apply Forall_forall. intros param Hin. by eapply Hs.
Qed.

Lemma generate_settled order s :
  Codegen.settled s -> Codegen.generateBodyDefinitionFromSchema order s = Done s.
Proof.
  intros Hs. induction order as [|path order IH]; simpl; [done|].
  by rewrite visit_path_settled.
Qed.

Lemma visit_path_defines path s s' def verb :
  Codegen.visit_path path s = Done s' ->
  Codegen.Paths s !! path = Some def ->
  def !! "put"%string = Some verb ->
  Exists (fun param => Codegen.body_without_ref param = true) (Codegen.po_Parameters verb) ->
  exists defs',
    Codegen.Definitions s' = Some defs' /\
    is_Some (defs' !! Codegen.objectName (Codegen.Namespace s) verb).
Proof.
  unfold Codegen.visit_path. intros Hvisit Hpath Hput Hex.
  rewrite Hpath, Hput in Hvisit.
  destruct (Codegen.visit_parameters _ _ _) as [r|] eqn:Hparams; [|done].
  simpl in Hvisit. injection Hvisit as <-. simpl.
  destruct (Codegen.Definitions s) as [defs|] eqn:Hdefs.
  - destruct (visit_parameters_Done _ _ _ _ Hparams) as (_ & _ & _ & Hsome).
    destruct (Hsome _ eq_refl) as (defs' & ? & _ & _ & Hname). exists defs'. auto.
  - by rewrite visit_parameters_Trap in Hparams.
Qed.

Lemma settled_after order s s' :
  Codegen.covers order s ->
  Codegen.generateBodyDefinitionFromSchema order s = Done s' ->
  Codegen.settled s'.
Proof.
  intros Hcov Hgen. destruct (generate_Done _ _ _ Hgen) as (_ & Hpaths & _).
  intros path def' verb' param Hpath Hput Hin.
  rewrite Hpaths in Hpath.
  assert (Hfrom : Codegen.referenced_path (Codegen.Namespace s) <$> Codegen.Paths s !! path
                  = Some def').
  { case_bool_decide as Hord; [done|].
    exfalso. apply Hord, Hcov. by rewrite Hpath. }
  destruct (Codegen.Paths s !! path) as [def|]; [|done].
  injection Hfrom as <-. unfold Codegen.referenced_path in Hput.
  destruct (def !! "put"%string) as [verb|] eqn:Hverb; [|congruence].
  rewrite lookup_insert_eq in Hput. injection Hput as <-. simpl in Hin.
  apply list_elem_of_fmap in Hin as (param0 & -> & _). apply referenced_settled.
Qed.

(** X17. The pass rewrites the paths the same way in whatever order Go
    visits them: when every path is visited, each path's "put" operation has
    its parameters replaced by the referenced ones (a body parameter named
    "body" without a reference gets "#/definitions/" followed by the object
    name, every other parameter stays), other operations stay, and
    afterwards no "put" operation has a body parameter without a
    reference. *)
Theorem paths_rewritten_in_any_order (order : list string) (s s' : Codegen.Schema) :
  Codegen.covers order s ->
  Codegen.generateBodyDefinitionFromSchema order s = Done s' ->
  Codegen.Namespace s' = Codegen.Namespace s /\
  Codegen.Paths s' = Codegen.referenced_path (Codegen.Namespace s) <$> Codegen.Paths s /\
  Codegen.settled s'.
Proof.
  intros Hcov Hgen. destruct (generate_Done _ _ _ Hgen) as (Hns & Hpaths & _).
  repeat split; [done | | by eapply settled_after].
  apply map_eq. intros path. rewrite Hpaths, lookup_fmap.
  case_bool_decide as Hord; [done|].
  destruct (Codegen.Paths s !! path) eqn:Hpath; [|done].
  exfalso. apply Hord, Hcov. by rewrite Hpath.
Qed.

(** X18. Every reference the pass gives resolves: when a visited path has a
    "put" operation with a body parameter named "body" without a reference,
    then after the pass the definitions exist and contain the object name
    that the parameter now refers to. *)
Theorem generated_references_resolve (order : list string) (s s' : Codegen.Schema)
    (path : string) (def : gmap string Codegen.PathOperation)
    (verb : Codegen.PathOperation) (param : Codegen.Param) :
  Codegen.generateBodyDefinitionFromSchema order s = Done s' ->
  path ∈ order ->
  Codegen.Paths s !! path = Some def ->
  def !! "put"%string = Some verb ->
  param ∈ Codegen.po_Parameters verb ->
  Codegen.body_without_ref param = true ->
  Codegen.Paths s' !! path = Some (Codegen.referenced_path (Codegen.Namespace s) def) /\
  Codegen.with_Ref ("#/definitions/" +:+ Codegen.objectName (Codegen.Namespace s) verb) param
    ∈ (Codegen.referenced (Codegen.objectName (Codegen.Namespace s) verb)
         <$> Codegen.po_Parameters verb) /\
  exists defs' d,
    Codegen.Definitions s' = Some defs' /\
    defs' !! Codegen.objectName (Codegen.Namespace s) verb = Some d.
Proof.
  intros Hgen Hin Hpath Hput Hparam Hbody. repeat split.
  - destruct (generate_Done _ _ _ Hgen) as (_ & Hpaths & _).
    by rewrite Hpaths, bool_decide_eq_true_2, Hpath.
  - apply list_elem_of_fmap. exists param. split; [|done].
    unfold Codegen.referenced. by rewrite Hbody.
  - assert (Hex : Exists (fun param => Codegen.body_without_ref param = true)
                    (Codegen.po_Parameters verb)).
    { apply Exists_exists. by exists param. }
    clear Hparam Hbody. revert s Hgen Hpath.
    induction order as [|p order IH]; intros s Hgen Hpath; [by apply elem_of_nil in Hin|].
    simpl in Hgen.
    destruct (Codegen.visit_path p s) as [s1|] eqn:Hvisit; [|done]. simpl in Hgen.
    destruct (visit_path_Done _ _ _ Hvisit) as (Hns1 & Hpaths1 & _ & _).
    destruct (decide (p = path)) as [->|Hne].
    + destruct (visit_path_defines _ _ _ _ _ Hvisit Hpath Hput Hex)
        as (defs1 & Hdefs1 & Hname).
      destruct (generate_Done _ _ _ Hgen) as (_ & _ & _ & Hsome).
      destruct (Hsome _ Hdefs1) as (defs' & Hdefs' & Hmono).
      destruct (Hmono _ Hname) as [d Hd]. by exists defs', d.
    + apply elem_of_cons in Hin as [->|Hin]; [done|].
      rewrite <- Hns1. apply (IH Hin s1 Hgen).
      rewrite Hpaths1. destruct (Codegen.Paths s !! p); [by rewrite lookup_insert_ne | done].
Qed.

(** X19. Running the pass again changes nothing: after a pass that visited
    every path, a second pass, in any order, ends with the same schema. *)
Theorem second_pass_changes_nothing (order order' : list string) (s s' : Codegen.Schema) :
  Codegen.covers order s ->
  Codegen.generateBodyDefinitionFromSchema order s = Done s' ->
  Codegen.generateBodyDefinitionFromSchema order' s' = Done s'.
Proof.
  intros Hcov Hgen. apply generate_settled. by eapply settled_after.
Qed.

(** X20. A schema without definitions makes the pass panic as soon as it
    has a body to name: when the definitions map is nil and a visited path
    has a "put" operation with a body parameter named "body" without a
    reference, the pass does not end. *)
Theorem nil_definitions_panic (order : list string) (s : Codegen.Schema)
    (path : string) (def : gmap string Codegen.PathOperation)
    (verb : Codegen.PathOperation) (param : Codegen.Param) :
  Codegen.Definitions s = None ->
  path ∈ order ->
  Codegen.Paths s !! path = Some def ->
  def !! "put"%string = Some verb ->
  param ∈ Codegen.po_Parameters verb ->
  Codegen.body_without_ref param = true ->
  Codegen.generateBodyDefinitionFromSchema order s = Trap.
Proof.
  intros Hnil Hin Hpath Hput Hparam Hbody.
  assert (Hex : Exists (fun param => Codegen.body_without_ref param = true)
                  (Codegen.po_Parameters verb)).
  { apply Exists_exists. by exists param. }
  clear Hparam Hbody. revert s Hnil Hpath.
  induction order as [|p order IH]; intros s Hnil Hpath; [by apply elem_of_nil in Hin|].
  simpl. destruct (Codegen.visit_path p s) as [s1|] eqn:Hvisit; [|done]. simpl.
  destruct (visit_path_Done _ _ _ Hvisit) as (_ & Hpaths1 & Hnone & _).
  destruct (decide (p = path)) as [->|Hne].
  - destruct (visit_path_defines _ _ _ _ _ Hvisit Hpath Hput Hex) as (defs1 & Hdefs1 & _).
    rewrite Hnone in Hdefs1 by done. done.
  - apply elem_of_cons in Hin as [->|Hin]; [done|].
    apply (IH Hin s1); [auto|].
    rewrite Hpaths1. destruct (Codegen.Paths s !! p); [by rewrite lookup_insert_ne | done].
Qed.

(** * The additional properties on concrete runs *)

Lemma push_touches_nothing_else_witness :
  exists new,
    emit (called_with onChannelMessage []) Example2.listening
    = with_effects (effects Example2.listening ++ new) Example2.listening /\
    (length new <= 1)%nat.
Proof.
  apply (push_touches_nothing_else Example.codec (Example.frame Byte.x05 "")
           {| cid := ""; message_ := Some (OneOf_Message.channelMessage []) |}
           Example2.listening).
  - reflexivity.
  - reflexivity.
  - reflexivity.
Defined.

Lemma unhandled_push_leaves_no_trace_witness :
  onReceivedData Example.codec (Example.frame Byte.x05 "") Example2.quiet
  = Done Example2.quiet.
Proof.
  apply (unhandled_push_leaves_no_trace Example.codec (Example.frame Byte.x05 "")
           {| cid := ""; message_ := Some (OneOf_Message.channelMessage []) |}
           Example2.quiet).
  - reflexivity.
  - reflexivity.
  - reflexivity.
  - intros h. reflexivity.
Defined.

Lemma completion_needs_matching_kind_witness :
  exists response collatedPromise,
    init_serializedData Example.codec (Example.frame Byte.x03 "1") = Ok response /\
    cid response <> "" /\
    collatedPromises Example.match_pending !! cid response = Some collatedPromise /\
    resolves (Value collatedPromise) (message_ response) /\
    pending collatedPromise Example.match_pending /\
    futures Example2.match_resolved
    = <[futureResult collatedPromise := Some (carried (message_ response))]>
        (futures Example.match_pending).
Proof.
  apply (completion_needs_matching_kind Example.codec (Example.frame Byte.x03 "1")
           Example.match_pending Example2.match_resolved).
  - by vm_compute.
  - by vm_compute.
Defined.

Lemma error_reply_fails_empty_request_witness :
  exists s',
    onReceivedData Example.codec (Example.frame Byte.x01 "1") Example.empty_pending
    = Done s' /\
    result_of Example.empty_promise s'
    = Some (failure (NakamaRealtimeError_error {| code := 5; message := "not found" |})) /\
    effects s' = effects Example.empty_pending.
Proof.
  apply (error_reply_fails_empty_request Example.codec (Example.frame Byte.x01 "1")
           {| cid := "1";
              message_ := Some (OneOf_Message.error {| code := 5; message := "not found" |}) |}
           {| code := 5; message := "not found" |}
           Example.empty_promise Example.empty_pending).
  - reflexivity.
  - discriminate.
  - reflexivity.
  - reflexivity.
  - reflexivity.
  - reflexivity.
Defined.

Lemma acknowledgement_is_logged_as_unrecognised_witness :
  onReceivedData Example.codec (Example.frame Byte.x00 "1") Example.empty_pending
  = Done (succeed Example.empty_promise Google_Protobuf_Empty_init
            (emit (logged (Unrecognised_collated "{}")) Example.empty_pending)) /\
  effects (succeed Example.empty_promise Google_Protobuf_Empty_init
             (emit (logged (Unrecognised_collated "{}")) Example.empty_pending))
  = effects Example.empty_pending ++ [logged (Unrecognised_collated "{}")].
Proof.
  apply (acknowledgement_is_logged_as_unrecognised Example.codec
           (Example.frame Byte.x00 "1") {| cid := "1"; message_ := None |}
           Example.empty_promise a_logger "{}" Example.empty_pending).
  - reflexivity.
  - discriminate.
  - reflexivity.
  - reflexivity.
  - reflexivity.
  - reflexivity.
  - reflexivity.
  - reflexivity.
Defined.

Lemma send_transmits_its_key_witness :
  exists binaryData,
    serializedData Example.codec (set_cid (next_id Example.socket0) Example.createMatch_env)
    = Ok binaryData /\
    adapter Example.match_pending = adapter Example.socket0 ++ [adapter_send binaryData] /\
    next_id Example.socket0 <> "" /\
    collatedPromises Example.match_pending !! next_id Example.socket0
    = Some Example.match_promise /\
    pending Example.match_promise Example.match_pending.
Proof.
  apply (send_transmits_its_key Example.codec Nakama_Realtime_Match
           Example.createMatch_env Example.socket0 Example.match_pending
           Example.match_promise).
  reflexivity.
Defined.

Lemma request_then_reply_witness :
  exists s2,
    onReceivedData Example.codec (Example.frame Byte.x03 "1") Example.match_pending
    = Done s2 /\
    result_of Example.match_promise s2
    = Some (carried (Some (OneOf_Message.match_ [Byte.x31]))) /\
    forall other,
      futureResult other <> futureResult Example.match_promise ->
      result_of other s2 = result_of other Example.match_pending.
Proof.
  apply (request_then_reply Example.codec Nakama_Realtime_Match Example.createMatch_env
           Example.socket0 Example.match_pending Example.match_promise (Ok tt)
           (Example.frame Byte.x03 "1")
           {| cid := "1"; message_ := Some (OneOf_Message.match_ [Byte.x31]) |}).
  - reflexivity.
  - reflexivity.
  - reflexivity.
  - reflexivity.
Defined.

Lemma results_are_final_witness :
  exists s',
    perform_all Example.codec Example2.after_the_reply Example2.match_resolved
    = Done s' /\
    result_of Example.match_promise s' = Some (success (decoded [Byte.x31])).
Proof.
  eexists. split; [by vm_compute|].
  eapply (results_are_final Example.codec Example2.after_the_reply
            Example2.match_resolved).
  - by vm_compute.
  - reflexivity.
Defined.

Lemma only_deliveries_complete_witness :
  exists s',
    perform_all Example.codec Example2.no_delivery_ops Example.match_pending = Done s' /\
    pending Example.match_promise s'.
Proof.
  eexists. split; [by vm_compute|].
  eapply (only_deliveries_complete Example.codec Example2.no_delivery_ops
            Example.match_pending).
  - reflexivity.
  - by vm_compute.
  - reflexivity.
Defined.

Lemma ids_differ_within_a_round_witness :
  exists s',
    perform_all Example.codec Example2.session_ops Example.socket0 = Done s' /\
    next_id s' <> next_id Example.socket0.
Proof.
  eexists. split; [by vm_compute|].
  eapply (ids_differ_within_a_round Example.codec Example2.session_ops Example.socket0).
  - unfold counter_in_range. simpl. lia.
  - by vm_compute.
  - simpl. lia.
Defined.

Lemma dictionary_holds_every_request_witness :
  exists s',
    perform_all Example.codec Example2.session_ops Example.socket0 = Done s' /\
    size (collatedPromises s') = length (sent_types Example2.session_ops) /\
    forall i T,
      sent_types Example2.session_ops !! i = Some T ->
      collatedPromises s'
        !! String_of_Int (collationCounter Example.socket0 + Z.of_nat i + 1)
      = Some {| Value := T; futureResult := length (futures Example.socket0) + i |}.
Proof.
  eexists. split; [by vm_compute|].
  eapply (dictionary_holds_every_request Example.codec Example2.session_ops
            Example.socket0).
  - reflexivity.
  - unfold counter_in_range. simpl. lia.
  - simpl. lia.
  - by vm_compute.
Defined.

Lemma listPartyJoinRequests_is_never_answered_witness :
  exists s1 promise s',
    listPartyJoinRequests Example2.codec [] Example.socket0 = (s1, promise, Ok tt) /\
    perform_all Example2.codec Example2.join_request_replies s1 = Done s' /\
    pending promise s'.
Proof.
  eexists _, _, _. split; [by vm_compute|]. split; [by vm_compute|].
  eapply (listPartyJoinRequests_is_never_answered Example2.codec []
            Example2.join_request_replies Example.socket0).
  - intros c promise Hc. by vm_compute in Hc.
  - by vm_compute.
  - by vm_compute.
Defined.

Lemma reply_reaches_only_its_id_witness :
  exists w w' a,
    run Example.codec Example2.both_awaiting {| socket := Example.socket0; tasks := [] |}
    = Done w /\
    step Example.codec w (ev_receive (Example.frame Byte.x03 "2")) = Done w' /\
    tasks w !! 0%nat = Some a /\
    act_counter a = "1"%string /\
    result_of (act_promise a) (socket w') = result_of (act_promise a) (socket w).
Proof.
  eexists _, _, _. split; [by vm_compute|]. split; [by vm_compute|].
  split; [reflexivity|]. split; [reflexivity|].
  eapply (reply_reaches_only_its_id Example.codec Example.socket0 Example2.both_awaiting
            _ _ 0%nat _ (Example.frame Byte.x03 "2")
            {| cid := "2"; message_ := Some (OneOf_Message.match_ [Byte.x32]) |}).
  - reflexivity.
  - by vm_compute.
  - reflexivity.
  - reflexivity.
  - discriminate.
  - by vm_compute.
Defined.

Lemma covers_example : Codegen.covers CodegenExample.order CodegenExample.schema.
Proof.
  intros path [def Hdef]. unfold CodegenExample.schema, CodegenExample.paths in Hdef.
  simpl in Hdef.
  apply lookup_insert_Some in Hdef as [[<- _]|[_ Hdef]].
  - apply list_elem_of_further, list_elem_of_here.
  - apply lookup_singleton_Some in Hdef as [<- _]. apply list_elem_of_here.
Qed.

Lemma paths_rewritten_in_any_order_witness :
  exists s',
    Codegen.generateBodyDefinitionFromSchema CodegenExample.order CodegenExample.schema
    = Done s' /\
    Codegen.Namespace s' = Codegen.Namespace CodegenExample.schema /\
    Codegen.Paths s'
    = Codegen.referenced_path (Codegen.Namespace CodegenExample.schema)
        <$> Codegen.Paths CodegenExample.schema /\
    Codegen.settled s'.
Proof.
  eexists. split; [by vm_compute|].
  eapply (paths_rewritten_in_any_order CodegenExample.order CodegenExample.schema).
  - exact covers_example.
  - by vm_compute.
Defined.

Lemma generated_references_resolve_witness :
  exists s',
    Codegen.generateBodyDefinitionFromSchema CodegenExample.order CodegenExample.schema
    = Done s' /\
    Codegen.objectName "Nakama" CodegenExample.put_event = "ApiUpdateEventRequest"%string /\
    exists defs' d,
      Codegen.Definitions s' = Some defs' /\
      defs' !! "ApiUpdateEventRequest"%string = Some d.
Proof.
  eexists. split; [by vm_compute|]. split; [reflexivity|].
  eapply (generated_references_resolve CodegenExample.order CodegenExample.schema _
            "/v2/event/{id}"
            {[ "put"%string := CodegenExample.put_event;
               "get"%string := CodegenExample.get_event ]}
            CodegenExample.put_event CodegenExample.body_param).
  - by vm_compute.
  - apply list_elem_of_further, list_elem_of_here.
  - reflexivity.
  - reflexivity.
  - apply list_elem_of_further, list_elem_of_here.
  - reflexivity.
Defined.

Lemma second_pass_changes_nothing_witness :
  exists s',
    Codegen.generateBodyDefinitionFromSchema CodegenExample.order CodegenExample.schema
    = Done s' /\
    Codegen.generateBodyDefinitionFromSchema (rev CodegenExample.order) s' = Done s'.
Proof.
  eexists. split; [by vm_compute|].
  eapply (second_pass_changes_nothing CodegenExample.order (rev CodegenExample.order)
            CodegenExample.schema).
  - exact covers_example.
  - by vm_compute.
Defined.

Lemma nil_definitions_panic_witness :
  Codegen.generateBodyDefinitionFromSchema CodegenExample.order
    CodegenExample.schema_without_definitions = Trap.
Proof.
  apply (nil_definitions_panic CodegenExample.order
           CodegenExample.schema_without_definitions "/v2/event/{id}"
           {[ "put"%string := CodegenExample.put_event;
              "get"%string := CodegenExample.get_event ]}
           CodegenExample.put_event CodegenExample.body_param).
  - reflexivity.
  - apply list_elem_of_further, list_elem_of_here.
  - reflexivity.
  - reflexivity.
  - apply list_elem_of_further, list_elem_of_here.
  - reflexivity.
Defined.

(** ** Object names *)

Lemma HasPrefix_app prefix s : Codegen.HasPrefix (prefix +:+ s) prefix = true.
Proof.
  induction prefix as [|c prefix IH]; [done|]. simpl.
  by rewrite Ascii.eqb_refl, IH.
Qed.

Lemma drop_app prefix s : Codegen.drop (String.length prefix) (prefix +:+ s) = s.
Proof.
  induction prefix as [|c prefix IH]; simpl; [by destruct s | done].
Qed.

(** X21. The object name of a "put" operation is "Api", the operation id
    without the namespace and an underscore in front, and "Request"; an
    operation id that does not start with the namespace and an underscore is
    taken whole. *)
Theorem objectName_strips_namespace (namespace name : string)
    (verb : Codegen.PathOperation) :
  (Codegen.po_OperationId verb = (namespace +:+ "_") +:+ name ->
   Codegen.objectName namespace verb = "Api" +:+ name +:+ "Request") /\
  (Codegen.HasPrefix (Codegen.po_OperationId verb) (namespace +:+ "_") = false ->
   Codegen.objectName namespace verb
   = "Api" +:+ Codegen.po_OperationId verb +:+ "Request").
Proof.
  unfold Codegen.objectName, Codegen.TrimPrefix. split.
  - intros ->. by rewrite HasPrefix_app, drop_app.
  - by intros ->.
Qed.

Example objectName_example :
  Codegen.objectName "Nakama" CodegenExample.put_event = "ApiUpdateEventRequest"%string /\
  Codegen.objectName "Satori" CodegenExample.put_event
  = "ApiNakama_UpdateEventRequest"%string.
Proof. done. Qed.

(** ** The stretches of [send], run in a row *)

